(** * CineGen Player: playback sequencer, canvas renderer and recorder

    A shallow embedding of [components/Player.tsx] (with the data model of
    [types.ts]) and the properties of its playback / compositing /
    recording logic.

    Conventions of the embedding.
    - The four [useState] cells of the component form the record [Cursor].
      A closure created during a render captures the [Cursor] of that
      render; callbacks handed to [setTimeout] or awaiting a promise keep
      that snapshot, while handlers bound in the JSX ([onClick],
      [onEnded]) are re-created by every render and see the current one.
    - [useRef] cells and the state of the hosting page (pending timers,
      the audio element, the pending animation frame, the recorder) are
      the remaining fields of [Player].
    - One [Event] is processed atomically: the handler runs, React
      commits the queued state updates, and the effects whose dependency
      list changed run against the new render. The page decides which
      pending callback arrives next; timers carry their delay but may
      fire in any order.
    - JavaScript strings are [string]; one character stands for one code
      unit, so [String.length] is [text.length].
    - Array indices and lengths are [nat]; the one place where the source
      computes [length - 1] is evaluated in [Z]. Frame timestamps are
      taken at integer resolution. Measured text widths are only
      compared, so their type is abstract. A frame records the elapsed
      time the zoom and pan factors are computed from; the factors
      themselves are functions of that time over the real numbers
      ([Math.sin] is [sin], a JavaScript number is a real). *)

From Stdlib Require Import ZArith List String Ascii Bool Lia Arith Sorted.
From Stdlib Require Import Reals Lra.
Import ListNotations.
Local Open Scope Z_scope.

Set Implicit Arguments.

(** ** Data model ([types.ts]) *)

Record Character := mkCharacter {
  c_id : string;
  c_name : string;
  c_description : string;
  c_voiceName : string;
  c_avatarUrl : option string
}.

Record Dialogue := mkDialogue {
  d_id : string;
  characterId : string;
  text : string;
  emotion : string;
  audioUrl : option string;
  isGeneratingAudio : bool
}.

Record Scene := mkScene {
  s_id : string;
  order : Z;
  description : string;
  imagePrompt : string;
  imageUrl : option string;
  dialogues : list Dialogue;
  isGeneratingImage : bool;
  duration : option Z
}.

(** Truthiness of an optional string property: [undefined] and the empty
    string are falsy. *)
Definition truthy (u : option string) : bool :=
  match u with
  | Some (String _ _) => true
  | _ => false
  end.

(** ** Subtitle word wrap ([wrapText]) *)

(** [text.split(' ')]: the segments between single spaces; never empty. *)
Fixpoint split_space (s : string) : list string :=
  match s with
  | EmptyString => [EmptyString]
  | String c rest =>
      if Ascii.eqb c " "%char then EmptyString :: split_space rest
      else match split_space rest with
           | w :: ws => String c w :: ws
           | [] => [String c EmptyString]
           end
  end.

(** One [ctx.fillText(text, x, y)] call. *)
Record FillText := mkFillText {
  ft_text : string;
  ft_x : Z;
  ft_y : Z
}.

Section WrapText.
(** Measured widths are only ever compared against [maxWidth], so their
    type is left abstract: [exceeds a b] is the test [a > b]. *)
Variable Width : Type.
Variable exceeds : Width -> Width -> bool.
Variable measureText : string -> Width.

Variables (x : Z) (maxWidth : Width) (lineHeight : Z).

(** The body of the [for] loop followed by the final [fillText]; [n] is
    the loop index, [line] and [y] the two mutable locals. *)
Fixpoint wrap_loop (words : list string) (n : nat) (line : string) (y : Z)
  : list FillText :=
  match words with
  | [] => [mkFillText line x y]
  | w :: rest =>
      let testLine := ((line ++ w) ++ " ")%string in
      let testWidth := measureText testLine in
      if exceeds testWidth maxWidth && negb (Nat.eqb n 0) then
        mkFillText line x y
          :: wrap_loop rest (S n) (w ++ " ")%string (y + lineHeight)
      else
        wrap_loop rest (S n) testLine y
  end.

Definition wrapText (txt : string) (y : Z) : list FillText :=
  wrap_loop (split_space txt) 0 EmptyString y.

(** A line as the loop builds it: every word followed by one space. *)
Definition render_words (ws : list string) : string :=
  fold_right (fun w acc => ((w ++ " ") ++ acc)%string) EmptyString ws.

(** The [k]-th emitted call of a run that started at height [y]. *)
Fixpoint laid_out (groups : list (list string)) (y : Z) : list FillText :=
  match groups with
  | [] => []
  | g :: gs => mkFillText (render_words g) x y :: laid_out gs (y + lineHeight)
  end.

(** A group of words fits, or it is a single word. *)
Definition fits_or_single (g : list string) : Prop :=
  exceeds (measureText (render_words g)) maxWidth = false
  \/ List.length g = 1%nat.

(** Every flush happened because the next word no longer fitted. *)
Fixpoint greedy (groups : list (list string)) : Prop :=
  match groups with
  | [] => True
  | g :: rest =>
      match rest with
      | (w :: _) :: _ =>
          exceeds (measureText (render_words (g ++ [w]))) maxWidth = true
      | _ => True
      end /\ greedy rest
  end.

End WrapText.

(** ** Component state *)

(** The four [useState] cells; also the snapshot a closure captures. *)
Record Cursor := mkCursor {
  currentSceneIndex : nat;
  currentDialogueIndex : nat;
  isPlaying : bool;
  isRecording : bool
}.

(** Callbacks handed to [setTimeout] by [playNextDialogue], each with the
    render it was created in. *)
Inductive TimerCallback :=
| SceneFinished (r : Cursor)
| DialogueEnd (r : Cursor).

(** [MediaRecorder.state] (the recorder is never paused here). *)
Inductive RecorderState := Inactive | Recording.

Inductive AudioContextState := Suspended | Running.

Inductive Exn :=
| TypeError
| NotSupportedError
| InvalidStateError.

(** What the hosting page provides: which elements are mounted and which
    capture APIs throw when called. *)
Record Host := mkHost {
  canvas_mounted : bool;
  audio_mounted : bool;
  AudioContext_throws : option Exn;
  createMediaStreamDestination_throws : option Exn;
  createMediaElementSource_throws : option Exn;
  captureStream_throws : option Exn;
  MediaStream_throws : option Exn;
  MediaRecorder_throws : option Exn;
  recorder_start_throws : option Exn;
  AudioContext_initial : AudioContextState
}.

Record Player := mkPlayer {
  cursor : Cursor;
  (** refs *)
  startTimeRef : Z;
  animationFrameRef : option Cursor;
  mediaRecorderRef : option RecorderState;
  recordedChunksRef : list Z;
  audioContextRef : option AudioContextState;
  destinationRef : bool;
  sourceNodeRef : bool;
  (** the page: image of the current effect, audio element, event loop *)
  loaded : bool;
  audioSrc : option string;
  audioPlaying : bool;
  playPromises : list Cursor;
  timers : list (Z * TimerCallback);
  stopEventPending : bool;
  downloads : list (list Z)
}.

Definition set_cursor v p := mkPlayer v (startTimeRef p) (animationFrameRef p) (mediaRecorderRef p) (recordedChunksRef p) (audioContextRef p) (destinationRef p) (sourceNodeRef p) (loaded p) (audioSrc p) (audioPlaying p) (playPromises p) (timers p) (stopEventPending p) (downloads p).
Definition set_startTimeRef v p := mkPlayer (cursor p) v (animationFrameRef p) (mediaRecorderRef p) (recordedChunksRef p) (audioContextRef p) (destinationRef p) (sourceNodeRef p) (loaded p) (audioSrc p) (audioPlaying p) (playPromises p) (timers p) (stopEventPending p) (downloads p).
Definition set_animationFrameRef v p := mkPlayer (cursor p) (startTimeRef p) v (mediaRecorderRef p) (recordedChunksRef p) (audioContextRef p) (destinationRef p) (sourceNodeRef p) (loaded p) (audioSrc p) (audioPlaying p) (playPromises p) (timers p) (stopEventPending p) (downloads p).
Definition set_mediaRecorderRef v p := mkPlayer (cursor p) (startTimeRef p) (animationFrameRef p) v (recordedChunksRef p) (audioContextRef p) (destinationRef p) (sourceNodeRef p) (loaded p) (audioSrc p) (audioPlaying p) (playPromises p) (timers p) (stopEventPending p) (downloads p).
Definition set_recordedChunksRef v p := mkPlayer (cursor p) (startTimeRef p) (animationFrameRef p) (mediaRecorderRef p) v (audioContextRef p) (destinationRef p) (sourceNodeRef p) (loaded p) (audioSrc p) (audioPlaying p) (playPromises p) (timers p) (stopEventPending p) (downloads p).
Definition set_audioContextRef v p := mkPlayer (cursor p) (startTimeRef p) (animationFrameRef p) (mediaRecorderRef p) (recordedChunksRef p) v (destinationRef p) (sourceNodeRef p) (loaded p) (audioSrc p) (audioPlaying p) (playPromises p) (timers p) (stopEventPending p) (downloads p).
Definition set_destinationRef v p := mkPlayer (cursor p) (startTimeRef p) (animationFrameRef p) (mediaRecorderRef p) (recordedChunksRef p) (audioContextRef p) v (sourceNodeRef p) (loaded p) (audioSrc p) (audioPlaying p) (playPromises p) (timers p) (stopEventPending p) (downloads p).
Definition set_sourceNodeRef v p := mkPlayer (cursor p) (startTimeRef p) (animationFrameRef p) (mediaRecorderRef p) (recordedChunksRef p) (audioContextRef p) (destinationRef p) v (loaded p) (audioSrc p) (audioPlaying p) (playPromises p) (timers p) (stopEventPending p) (downloads p).
Definition set_loaded v p := mkPlayer (cursor p) (startTimeRef p) (animationFrameRef p) (mediaRecorderRef p) (recordedChunksRef p) (audioContextRef p) (destinationRef p) (sourceNodeRef p) v (audioSrc p) (audioPlaying p) (playPromises p) (timers p) (stopEventPending p) (downloads p).
Definition set_audioSrc v p := mkPlayer (cursor p) (startTimeRef p) (animationFrameRef p) (mediaRecorderRef p) (recordedChunksRef p) (audioContextRef p) (destinationRef p) (sourceNodeRef p) (loaded p) v (audioPlaying p) (playPromises p) (timers p) (stopEventPending p) (downloads p).
Definition set_audioPlaying v p := mkPlayer (cursor p) (startTimeRef p) (animationFrameRef p) (mediaRecorderRef p) (recordedChunksRef p) (audioContextRef p) (destinationRef p) (sourceNodeRef p) (loaded p) (audioSrc p) v (playPromises p) (timers p) (stopEventPending p) (downloads p).
Definition set_playPromises v p := mkPlayer (cursor p) (startTimeRef p) (animationFrameRef p) (mediaRecorderRef p) (recordedChunksRef p) (audioContextRef p) (destinationRef p) (sourceNodeRef p) (loaded p) (audioSrc p) (audioPlaying p) v (timers p) (stopEventPending p) (downloads p).
Definition set_timers v p := mkPlayer (cursor p) (startTimeRef p) (animationFrameRef p) (mediaRecorderRef p) (recordedChunksRef p) (audioContextRef p) (destinationRef p) (sourceNodeRef p) (loaded p) (audioSrc p) (audioPlaying p) (playPromises p) v (stopEventPending p) (downloads p).
Definition set_stopEventPending v p := mkPlayer (cursor p) (startTimeRef p) (animationFrameRef p) (mediaRecorderRef p) (recordedChunksRef p) (audioContextRef p) (destinationRef p) (sourceNodeRef p) (loaded p) (audioSrc p) (audioPlaying p) (playPromises p) (timers p) v (downloads p).
Definition set_downloads v p := mkPlayer (cursor p) (startTimeRef p) (animationFrameRef p) (mediaRecorderRef p) (recordedChunksRef p) (audioContextRef p) (destinationRef p) (sourceNodeRef p) (loaded p) (audioSrc p) (audioPlaying p) (playPromises p) (timers p) (stopEventPending p) v.

(** The [useState] setters, in their functional form [set(prev => ...)]. *)
Definition setCurrentSceneIndex (f : nat -> nat) (p : Player) : Player :=
  let c := cursor p in
  set_cursor (mkCursor (f (currentSceneIndex c)) (currentDialogueIndex c)
                       (isPlaying c) (isRecording c)) p.

Definition setCurrentDialogueIndex (f : nat -> nat) (p : Player) : Player :=
  let c := cursor p in
  set_cursor (mkCursor (currentSceneIndex c) (f (currentDialogueIndex c))
                       (isPlaying c) (isRecording c)) p.

Definition setIsPlaying (b : bool) (p : Player) : Player :=
  let c := cursor p in
  set_cursor (mkCursor (currentSceneIndex c) (currentDialogueIndex c)
                       b (isRecording c)) p.

Definition setIsRecording (b : bool) (p : Player) : Player :=
  let c := cursor p in
  set_cursor (mkCursor (currentSceneIndex c) (currentDialogueIndex c)
                       (isPlaying c) b) p.

(** The component right after mounting: [useState(0)], [useState(false)],
    [useRef(0)], [useRef(null)], nothing pending. *)
Definition mount : Player :=
  mkPlayer (mkCursor 0 0 false false) 0 None None [] None false false
           false None false [] [] false [].

(** ** Event handlers running to completion, possibly throwing

    State updates made before a [throw] stay: nothing in the component
    rolls them back. *)
Definition Handler (A : Type) : Type := Player -> Player * (Exn + A).

Definition ret {A} (a : A) : Handler A := fun p => (p, inr a).

Definition throw {A} (e : Exn) : Handler A := fun p => (p, inl e).

Definition bind {A B} (m : Handler A) (k : A -> Handler B) : Handler B :=
  fun p =>
    match m p with
    | (p', inl e) => (p', inl e)
    | (p', inr a) => k a p'
    end.

Definition update (f : Player -> Player) : Handler unit :=
  fun p => (f p, inr tt).

Definition read {A} (f : Player -> A) : Handler A :=
  fun p => (p, inr (f p)).

(** A call into the host that throws when the host says so. *)
Definition host_call (throws : option Exn) : Handler unit :=
  match throws with
  | Some e => throw e
  | None => ret tt
  end.

Declare Scope handler_scope.
Delimit Scope handler_scope with handler.
Notation "x <- m ;; k" := (bind m (fun x => k))
  (at level 61, m at next level, right associativity) : handler_scope.
Notation "m ;; k" := (bind m (fun _ => k))
  (at level 61, right associativity) : handler_scope.

(** Partial-correctness triples for handlers: from a state satisfying
    [P], a normal return satisfies [Q] and an escaping exception leaves a
    state satisfying [E]. *)
Definition triple {A} (P : Player -> Prop) (m : Handler A)
    (Q : A -> Player -> Prop) (E : Exn -> Player -> Prop) : Prop :=
  forall p, P p ->
    match m p with
    | (p', inr a) => Q a p'
    | (p', inl e) => E e p'
    end.

(** ** The component body *)

Inductive Event :=
| ClickRewind
| ClickPlayPause
| ClickNext
| ClickRecord
| TimerFires (n : nat)
| AudioEnded
| PlaySettled (n : nat) (ok : bool)
| AnimationFrame (timestamp : Z)
| ImageLoaded
| DataAvailable (size : Z)
| RecorderStopped.

(** What one [render] call puts on the canvas: the elapsed time the
    transform is computed from, and the caption (speaker name before
    upper-casing, dialogue text before quoting and wrapping). *)
Record Frame := mkFrame {
  progress : Z;
  subtitle : option (string * string)
}.

(** The zoom and pan factors [render] computes from [progress] before it
    draws the image (the Ken Burns effect). *)
Definition scale (progress : R) : R :=
  (1.0 + (sin (progress * 0.0002) * 0.05))%R.

Definition panX (progress : R) : R :=
  (sin (progress * 0.0001) * 20)%R.

Section PlayerBody.
Variable scenes : list Scene.
Variable characters : list Character.
Variable host : Host.

Definition currentScene (c : Cursor) : option Scene :=
  nth_error scenes (currentSceneIndex c).

Definition currentDialogueObj (c : Cursor) : option Dialogue :=
  match currentScene c with
  | Some sc => nth_error (dialogues sc) (currentDialogueIndex c)
  | None => None
  end.

Definition activeChar (c : Cursor) : option Character :=
  match currentDialogueObj c with
  | Some d => find (fun ch => String.eqb (c_id ch) (characterId d)) characters
  | None => None
  end.

(** [currentSceneIndex < scenes.length - 1]; the right-hand side is -1
    for an empty list. *)
Definition before_last_scene (c : Cursor) : bool :=
  Z.of_nat (currentSceneIndex c) <? Z.of_nat (List.length scenes) - 1.

(** *** Canvas rendering loop *)

(** [timestamp - startTimeRef.current] after the lazy initialisation of
    the origin. *)
Definition origin_after (timestamp : Z) (p : Player) : Z :=
  if startTimeRef p =? 0 then timestamp else startTimeRef p.

Definition frame_of (timestamp : Z) (r : Cursor) (p : Player) : option Frame :=
  if canvas_mounted host && loaded p then
    Some (mkFrame (timestamp - origin_after timestamp p)
            (match currentDialogueObj r with
             | Some d =>
                 if isPlaying r then
                   Some (match activeChar r with
                         | Some ch =>
                             match c_name ch with
                             | EmptyString => "Unknown"%string
                             | name => name
                             end
                         | None => "Unknown"%string
                         end, text d)
                 else None
             | None => None
             end))
  else None.

(** [render(timestamp)] of the effect created in render [r]. *)
Definition render (timestamp : Z) (r : Cursor) (p : Player) : Player :=
  let p1 := set_startTimeRef (origin_after timestamp p) p in
  if isPlaying r then set_animationFrameRef (Some r) p1
  else set_animationFrameRef None p1.

(** Cleanup of the previous rendering effect ([cancelAnimationFrame]),
    then its body for the new render. An effect that returned early
    registered no cleanup, but it requested no frame either, so
    cancelling unconditionally is the same. Only the latest effect can
    have a frame pending, so the one [loaded] flag is that of its
    image. *)
Definition render_effect (p : Player) : Player :=
  let r := cursor p in
  let p1 := set_animationFrameRef None p in
  match currentScene r with
  | Some sc =>
      if truthy (imageUrl sc) then
        let p2 := set_loaded false p1 in
        if isPlaying r then set_animationFrameRef (Some r) p2
        else set_animationFrameRef None p2
      else p1
  | None => p1
  end.

(** *** Audio and sequencing *)

Definition stopRecording (p : Player) : Player :=
  match mediaRecorderRef p with
  | Some Recording =>
      set_stopEventPending true (set_mediaRecorderRef (Some Inactive) p)
  | _ => p
  end.

Definition handleDialogueEnd (r : Cursor) (p : Player) : Player :=
  if negb (isPlaying r) then p
  else setCurrentDialogueIndex (fun prev => (prev + 1)%nat) p.

(** The arrow function given to [setTimeout(..., 1000)]. *)
Definition sceneFinished (r : Cursor) (p : Player) : Player :=
  if before_last_scene r then
    setCurrentDialogueIndex (fun _ => 0%nat)
      (setCurrentSceneIndex (fun prev => (prev + 1)%nat) p)
  else
    stopRecording (setIsPlaying false p).

Definition setTimeout (cb : TimerCallback) (delay : Z) (p : Player) : Player :=
  set_timers (timers p ++ [(delay, cb)]) p.

Definition dwell (d : Dialogue) : Z :=
  Z.max 2000 (Z.of_nat (String.length (text d)) * 50).

Definition playNextDialogue (r : Cursor) (p : Player) : Player :=
  match currentScene r with
  | None => p
  | Some sc =>
      if (List.length (dialogues sc) <=? currentDialogueIndex r)%nat then
        setTimeout (SceneFinished r) 1000 p
      else
        match nth_error (dialogues sc) (currentDialogueIndex r) with
        | None => p
        | Some dialogue =>
            if truthy (audioUrl dialogue) && audio_mounted host then
              set_playPromises (playPromises p ++ [r])
                (set_audioPlaying true (set_audioSrc (audioUrl dialogue) p))
            else
              setTimeout (DialogueEnd r) (dwell dialogue) p
        end
  end.

Definition sequencing_effect (p : Player) : Player :=
  if isPlaying (cursor p) then playNextDialogue (cursor p) p
  else if audio_mounted host then set_audioPlaying false p
  else p.

(** Both effects depend on the two indices and [isPlaying] (the scene
    object follows from the index, the props being fixed). *)
Definition deps_changed (old new : Cursor) : bool :=
  negb (Nat.eqb (currentSceneIndex old) (currentSceneIndex new)
        && Nat.eqb (currentDialogueIndex old) (currentDialogueIndex new)
        && Bool.eqb (isPlaying old) (isPlaying new)).

Definition commit (old : Cursor) (p : Player) : Player :=
  if deps_changed old (cursor p) then sequencing_effect (render_effect p)
  else p.

(** *** Recording *)

Local Open Scope handler_scope.

Definition setupAudioContext : Handler unit :=
  ctx <- read audioContextRef ;;
  match ctx with
  | None =>
      if audio_mounted host then
        host_call (AudioContext_throws host) ;;
        update (set_audioContextRef (Some (AudioContext_initial host))) ;;
        host_call (createMediaStreamDestination_throws host) ;;
        update (set_destinationRef true) ;;
        host_call (createMediaElementSource_throws host) ;;
        update (set_sourceNodeRef true)
      else ret tt
  | Some _ => ret tt
  end.

Definition startRecording : Handler unit :=
  if negb (canvas_mounted host) then ret tt
  else
    update (setIsRecording true) ;;
    update (setCurrentSceneIndex (fun _ => 0%nat)) ;;
    update (setCurrentDialogueIndex (fun _ => 0%nat)) ;;
    setupAudioContext ;;
    host_call (captureStream_throws host) ;;
    dest <- read destinationRef ;;
    (if dest then ret tt else throw TypeError) ;;
    host_call (MediaStream_throws host) ;;
    host_call (MediaRecorder_throws host) ;;
    update (set_mediaRecorderRef (Some Inactive)) ;;
    update (set_recordedChunksRef []) ;;
    host_call (recorder_start_throws host) ;;
    update (set_mediaRecorderRef (Some Recording)) ;;
    update (setIsPlaying true) ;;
    ctx <- read audioContextRef ;;
    match ctx with
    | Some Suspended => update (set_audioContextRef (Some Running))
    | _ => ret tt
    end.

Local Close Scope handler_scope.


(** [recorder.ondataavailable] and [recorder.onstop]. *)
Definition ondataavailable (size : Z) (p : Player) : Player :=
  if 0 <? size then set_recordedChunksRef (recordedChunksRef p ++ [size]) p
  else p.

Definition onstop (p : Player) : Player :=
  setIsPlaying false
    (setIsRecording false
       (set_downloads (downloads p ++ [recordedChunksRef p]) p)).

(** *** Transport controls *)

Definition onClick_rewind (p : Player) : Player :=
  setCurrentDialogueIndex (fun _ => 0%nat)
    (setCurrentSceneIndex (fun _ => 0%nat) p).

Definition onClick_playPause (p : Player) : Player :=
  setIsPlaying (negb (isPlaying (cursor p))) p.

Definition onClick_next (p : Player) : Player :=
  if before_last_scene (cursor p) then
    setCurrentSceneIndex (fun prev => (prev + 1)%nat) p
  else p.

(** The [disabled] attribute of each button; a disabled button
    dispatches no click. *)
Definition disabled (e : Event) (c : Cursor) : bool :=
  match e with
  | ClickRewind | ClickPlayPause | ClickNext => isRecording c
  | ClickRecord => isRecording c || isPlaying c
  | _ => false
  end.

(** *** One event *)

Fixpoint remove_nth {A} (n : nat) (l : list A) : list A :=
  match l, n with
  | [], _ => []
  | _ :: t, O => t
  | h :: t, S k => h :: remove_nth k t
  end.

Definition run_timer (cb : TimerCallback) (p : Player) : Player :=
  match cb with
  | SceneFinished r => sceneFinished r p
  | DialogueEnd r => handleDialogueEnd r p
  end.

(** The handler of an event, with the exception it lets escape. *)
Definition dispatch (e : Event) (p : Player) : Player * option Exn :=
  if disabled e (cursor p) then (p, None)
  else
    match e with
    | ClickRewind => (onClick_rewind p, None)
    | ClickPlayPause => (onClick_playPause p, None)
    | ClickNext => (onClick_next p, None)
    | ClickRecord =>
        match startRecording p with
        | (p', inl ex) => (p', Some ex)
        | (p', inr _) => (p', None)
        end
    | TimerFires n =>
        match nth_error (timers p) n with
        | Some (_, cb) => (run_timer cb (set_timers (remove_nth n (timers p)) p), None)
        | None => (p, None)
        end
    | AudioEnded =>
        if audioPlaying p then
          (handleDialogueEnd (cursor p) (set_audioPlaying false p), None)
        else (p, None)
    | PlaySettled n ok =>
        match nth_error (playPromises p) n with
        | Some r =>
            let p1 := set_playPromises (remove_nth n (playPromises p)) p in
            if ok then (p1, None) else (handleDialogueEnd r p1, None)
        | None => (p, None)
        end
    | AnimationFrame timestamp =>
        match animationFrameRef p with
        | Some r => (render timestamp r p, None)
        | None => (p, None)
        end
    | ImageLoaded => (set_loaded true p, None)
    | DataAvailable size =>
        match mediaRecorderRef p with
        | Some _ => (ondataavailable size p, None)
        | None => (p, None)
        end
    | RecorderStopped =>
        if stopEventPending p then (onstop (set_stopEventPending false p), None)
        else (p, None)
    end.

Definition step (e : Event) (p : Player) : Player :=
  commit (cursor p) (fst (dispatch e p)).

Definition run (es : list Event) (p : Player) : Player :=
  fold_left (fun q e => step e q) es p.

(** *** A complete playback *)

(** The line whose subtitle is on screen, if any. *)
Definition active_line (p : Player) : list (nat * nat) :=
  match currentDialogueObj (cursor p) with
  | Some _ =>
      if isPlaying (cursor p)
      then [(currentSceneIndex (cursor p), currentDialogueIndex (cursor p))]
      else []
  | None => []
  end.

(** The continuation the page will deliver next when nobody touches the
    controls: the pending timer, else the end of the playing clip. *)
Definition next_event (p : Player) : option Event :=
  match timers p with
  | _ :: _ => Some (TimerFires 0)
  | [] => if audioPlaying p then Some AudioEnded else None
  end.

Fixpoint play_through (fuel : nat) (p : Player) : list (nat * nat) * Player :=
  match fuel with
  | O => ([], p)
  | S k =>
      match next_event p with
      | None => ([], p)
      | Some e =>
          let p' := step e p in
          let (ls, q) := play_through k p' in
          (active_line p' ++ ls, q)
      end
  end.

(** Press play on the freshly mounted component and let it run. *)
Definition playback (fuel : nat) : list (nat * nat) * Player :=
  let p0 := step ClickPlayPause mount in
  let (ls, q) := play_through fuel p0 in
  (active_line p0 ++ ls, q).

(** *** Invariant of an undisturbed playback *)

(** The line at the cursor is backed by an audio clip that can play. *)
Definition has_audio (d : Dialogue) : bool :=
  truthy (audioUrl d) && audio_mounted host.

(** The component is playing and exactly one continuation is pending:
    the end of the clip, the dwell timer of a silent line, or the
    inter-scene timer once the scene has no line left. *)
Definition waiting (p : Player) : Prop :=
  isPlaying (cursor p) = true
  /\ exists sc,
       currentScene (cursor p) = Some sc
       /\ match nth_error (dialogues sc) (currentDialogueIndex (cursor p)) with
          | Some d =>
              if has_audio d
              then timers p = [] /\ audioPlaying p = true
              else timers p = [(dwell d, DialogueEnd (cursor p))]
                   /\ audioPlaying p = false
          | None =>
              currentDialogueIndex (cursor p) = List.length (dialogues sc)
              /\ timers p = [(1000, SceneFinished (cursor p))]
              /\ audioPlaying p = false
          end.

End PlayerBody.

(** ** Reference orders and sample projects *)

(** Every line of the project in storage order: scene by scene as the
    array holds them, and inside a scene by dialogue index. *)
Fixpoint array_order_lines (i : nat) (ss : list Scene) : list (nat * nat) :=
  match ss with
  | [] => []
  | sc :: rest =>
      map (fun j => (i, j)) (seq 0 (List.length (dialogues sc)))
        ++ array_order_lines (S i) rest
  end.

(** Events a complete playback consumes: one per line and one pause per
    scene. *)
Fixpoint run_length (ss : list Scene) : nat :=
  match ss with
  | [] => 0
  | sc :: rest => (List.length (dialogues sc) + 1 + run_length rest)%nat
  end.

(** The [order] fields of the scenes a list of visited lines goes
    through. *)
Definition visited_orders (ss : list Scene) (ls : list (nat * nat)) : list Z :=
  flat_map (fun l => match nth_error ss (fst l) with
                     | Some sc => [order sc]
                     | None => []
                     end) ls.

(** [order] is a dense index: the fields are exactly 0 .. n-1. *)
Definition dense_order (ss : list Scene) : Prop :=
  forall k, (k < List.length ss)%nat <-> In (Z.of_nat k) (map order ss).

Definition silent (t : string) : Dialogue :=
  mkDialogue "d" "c" t "neutral" None false.

Definition voiced (t url : string) : Dialogue :=
  mkDialogue "d" "c" t "neutral" (Some url) false.

Definition scene_of (o : Z) (ds : list Dialogue) : Scene :=
  mkScene "s" o "" "" (Some "bg.png"%string) ds false None.

(** Two scenes with two and one dialogue lines. *)
Definition two_scenes : list Scene :=
  [scene_of 0 [silent "hello"; silent "world"]; scene_of 1 [silent "bye"]].

(** The same kind of project, stored with the later scene first. *)
Definition stored_out_of_order : list Scene :=
  [scene_of 1 [silent "second"]; scene_of 0 [silent "first"]].

(** A page where every capture API works. *)
Definition capable_host : Host :=
  mkHost true true None None None None None None None Suspended.


(** ** Quantities and invariants of the player *)

(** The callback of a pending timer was created in this render. *)
Definition timer_render (t : Z * TimerCallback) : Cursor :=
  match snd t with
  | SceneFinished r => r
  | DialogueEnd r => r
  end.

(** Every pending timer and every pending [play()] promise was created
    by a render in which [isPlaying] was true. *)
Definition closures_playing (p : Player) : Prop :=
  Forall (fun t => isPlaying (timer_render t) = true) (timers p)
  /\ Forall (fun r => isPlaying r = true) (playPromises p).

(** A pending animation frame belongs to the current line of a playing
    component whose scene has an image. *)
Definition frame_current (scenes : list Scene) (p : Player) : Prop :=
  match animationFrameRef p with
  | Some r =>
      isPlaying r = true
      /\ isPlaying (cursor p) = true
      /\ currentSceneIndex r = currentSceneIndex (cursor p)
      /\ currentDialogueIndex r = currentDialogueIndex (cursor p)
      /\ exists sc, currentScene scenes r = Some sc
                    /\ truthy (imageUrl sc) = true
  | None => True
  end.

(** Every capture API is there and none throws. *)
Definition host_capable (host : Host) : Prop :=
  canvas_mounted host = true
  /\ audio_mounted host = true
  /\ AudioContext_throws host = None
  /\ createMediaStreamDestination_throws host = None
  /\ createMediaElementSource_throws host = None
  /\ captureStream_throws host = None
  /\ MediaStream_throws host = None
  /\ MediaRecorder_throws host = None
  /\ recorder_start_throws host = None.

(** A recording session before its download: capturing while playing,
    or stopped with the stop event still to come. *)
Definition session_open (p : Player) : Prop :=
  isRecording (cursor p) = true
  /\ downloads p = []
  /\ recordedChunksRef p = []
  /\ ((isPlaying (cursor p) = true
       /\ mediaRecorderRef p = Some Recording
       /\ stopEventPending p = false)
      \/ (isPlaying (cursor p) = false
          /\ mediaRecorderRef p = Some Inactive
          /\ stopEventPending p = true)).

(** The delay of the timer [next_event] fires (the length of a clip is
    not known to the component and counts as 0). *)
Definition next_delay (p : Player) : Z :=
  match timers p with
  | (delay, _) :: _ => delay
  | [] => 0
  end.

(** Time spent waiting for timers along [play_through]. *)
Fixpoint play_through_time (scenes : list Scene) (host : Host) (fuel : nat)
    (p : Player) : Z :=
  match fuel with
  | O => 0
  | S k =>
      match next_event p with
      | None => 0
      | Some e => next_delay p + play_through_time scenes host k (step scenes host e p)
      end
  end.



(** ** Application shell ([App.tsx]) *)

Record ScriptAnalysis := mkScriptAnalysis {
  a_title : string;
  a_characters : list Character;
  a_scenes : list Scene
}.

Inductive AppView := ViewScript | ViewStoryboard | ViewPreview.

(** The two [useState] cells of [App]. *)
Record App := mkApp {
  view : AppView;
  analysis : option ScriptAnalysis
}.

(** [Partial<T>]: a key is absent ([None]) or present with a value; for
    an optional property the value itself may be [undefined]. *)
Record SceneUpdate := mkSceneUpdate {
  su_id : option string;
  su_order : option Z;
  su_description : option string;
  su_imagePrompt : option string;
  su_imageUrl : option (option string);
  su_dialogues : option (list Dialogue);
  su_isGeneratingImage : option bool;
  su_duration : option (option Z)
}.

Record DialogueUpdate := mkDialogueUpdate {
  du_id : option string;
  du_characterId : option string;
  du_text : option string;
  du_emotion : option string;
  du_audioUrl : option (option string);
  du_isGeneratingAudio : option bool
}.

Record CharacterUpdate := mkCharacterUpdate {
  cu_id : option string;
  cu_name : option string;
  cu_description : option string;
  cu_voiceName : option string;
  cu_avatarUrl : option (option string)
}.

(** One key of an object spread [{...old, ...updates}]. *)
Definition spread {A} (old : A) (new : option A) : A :=
  match new with
  | Some v => v
  | None => old
  end.

Definition spread_scene (s : Scene) (u : SceneUpdate) : Scene :=
  mkScene (spread (s_id s) (su_id u)) (spread (order s) (su_order u))
          (spread (description s) (su_description u))
          (spread (imagePrompt s) (su_imagePrompt u))
          (spread (imageUrl s) (su_imageUrl u))
          (spread (dialogues s) (su_dialogues u))
          (spread (isGeneratingImage s) (su_isGeneratingImage u))
          (spread (duration s) (su_duration u)).

Definition spread_dialogue (d : Dialogue) (u : DialogueUpdate) : Dialogue :=
  mkDialogue (spread (d_id d) (du_id u))
             (spread (characterId d) (du_characterId u))
             (spread (text d) (du_text u))
             (spread (emotion d) (du_emotion u))
             (spread (audioUrl d) (du_audioUrl u))
             (spread (isGeneratingAudio d) (du_isGeneratingAudio u)).

Definition spread_character (c : Character) (u : CharacterUpdate) : Character :=
  mkCharacter (spread (c_id c) (cu_id u)) (spread (c_name c) (cu_name u))
              (spread (c_description c) (cu_description u))
              (spread (c_voiceName c) (cu_voiceName u))
              (spread (c_avatarUrl c) (cu_avatarUrl u)).

(** Two updates applied one after the other: the later key wins. *)
Definition then_scene_update (u1 u2 : SceneUpdate) : SceneUpdate :=
  mkSceneUpdate (spread (su_id u1) (option_map Some (su_id u2)))
    (spread (su_order u1) (option_map Some (su_order u2)))
    (spread (su_description u1) (option_map Some (su_description u2)))
    (spread (su_imagePrompt u1) (option_map Some (su_imagePrompt u2)))
    (spread (su_imageUrl u1) (option_map Some (su_imageUrl u2)))
    (spread (su_dialogues u1) (option_map Some (su_dialogues u2)))
    (spread (su_isGeneratingImage u1) (option_map Some (su_isGeneratingImage u2)))
    (spread (su_duration u1) (option_map Some (su_duration u2))).

Definition handleScriptAnalysis (data : ScriptAnalysis) (app : App) : App :=
  mkApp ViewStoryboard (Some data).

Definition updateScene (sceneId : string) (updates : SceneUpdate) (app : App)
  : App :=
  match analysis app with
  | None => app
  | Some prev =>
      mkApp (view app)
        (Some (mkScriptAnalysis (a_title prev) (a_characters prev)
                 (map (fun s => if String.eqb (s_id s) sceneId
                                then spread_scene s updates else s)
                      (a_scenes prev))))
  end.

Definition updateDialogue (sceneId dialogueId : string)
    (updates : DialogueUpdate) (app : App) : App :=
  match analysis app with
  | None => app
  | Some prev =>
      mkApp (view app)
        (Some (mkScriptAnalysis (a_title prev) (a_characters prev)
                 (map (fun s =>
                         if negb (String.eqb (s_id s) sceneId) then s
                         else
                           mkScene (s_id s) (order s) (description s)
                             (imagePrompt s) (imageUrl s)
                             (map (fun d => if String.eqb (d_id d) dialogueId
                                            then spread_dialogue d updates
                                            else d)
                                  (dialogues s))
                             (isGeneratingImage s) (duration s))
                      (a_scenes prev))))
  end.

Definition updateCharacter (charId : string) (updates : CharacterUpdate)
    (app : App) : App :=
  match analysis app with
  | None => app
  | Some prev =>
      mkApp (view app)
        (Some (mkScriptAnalysis (a_title prev)
                 (map (fun c => if String.eqb (c_id c) charId
                                then spread_character c updates else c)
                      (a_characters prev))
                 (a_scenes prev)))
  end.

(** What can reach [App]: the navigation buttons, the callbacks of the
    three views. [OnPreview] and [OnBack] come from buttons of the
    storyboard and of the player, which exist only while those views are
    rendered; the other callbacks may arrive at any time (they are also
    invoked when a pending request settles). *)
Inductive AppEvent :=
| NavScript
| NavStoryboard
| AnalysisComplete (data : ScriptAnalysis)
| OnPreview
| OnBack
| UpdateScene (sceneId : string) (updates : SceneUpdate)
| UpdateDialogue (sceneId dialogueId : string) (updates : DialogueUpdate)
| UpdateCharacter (charId : string) (updates : CharacterUpdate).

Definition setView (v : AppView) (app : App) : App := mkApp v (analysis app).

(** Which view component [App] renders. *)
Definition rendered (app : App) : option AppView :=
  match view app, analysis app with
  | ViewScript, _ => Some ViewScript
  | ViewStoryboard, Some _ => Some ViewStoryboard
  | ViewPreview, Some _ => Some ViewPreview
  | _, None => None
  end.

Definition app_step (e : AppEvent) (app : App) : App :=
  match e with
  | NavScript => setView ViewScript app
  | NavStoryboard =>
      match analysis app with
      | Some _ => setView ViewStoryboard app
      | None => app
      end
  | AnalysisComplete data => handleScriptAnalysis data app
  | OnPreview =>
      match rendered app with
      | Some ViewStoryboard => setView ViewPreview app
      | _ => app
      end
  | OnBack =>
      match rendered app with
      | Some ViewPreview => setView ViewStoryboard app
      | _ => app
      end
  | UpdateScene sceneId updates => updateScene sceneId updates app
  | UpdateDialogue sceneId dialogueId updates =>
      updateDialogue sceneId dialogueId updates app
  | UpdateCharacter charId updates => updateCharacter charId updates app
  end.

Definition app_run (es : list AppEvent) (app : App) : App :=
  fold_left (fun a e => app_step e a) es app.

(** [useState<AppView>('script')], [useState(null)]. *)
Definition app_init : App := mkApp ViewScript None.

Definition app_scenes (app : App) : list Scene :=
  match analysis app with
  | Some a => a_scenes a
  | None => []
  end.

Definition app_characters (app : App) : list Character :=
  match analysis app with
  | Some a => a_characters a
  | None => []
  end.

(** ** Storyboard handlers ([Storyboard.tsx])

    Each handler awaits one request; it is split into the part that runs
    at the click and the part that runs when the request settles, with
    the message passed to [alert], if any. [scene], [dialogue] and
    [char] are the objects of the render the button belonged to. *)

Definition su_none : SceneUpdate :=
  mkSceneUpdate None None None None None None None None.

Definition du_none : DialogueUpdate :=
  mkDialogueUpdate None None None None None None.

Definition cu_none : CharacterUpdate :=
  mkCharacterUpdate None None None None None.

Definition su_generating (b : bool) : SceneUpdate :=
  mkSceneUpdate None None None None None None (Some b) None.

Definition su_image (url : string) : SceneUpdate :=
  mkSceneUpdate None None None None (Some (Some url)) None (Some false) None.

Definition du_generating (b : bool) : DialogueUpdate :=
  mkDialogueUpdate None None None None None (Some b).

Definition du_audio (url : string) : DialogueUpdate :=
  mkDialogueUpdate None None None None (Some (Some url)) (Some false).

Definition cu_avatar (url : string) : CharacterUpdate :=
  mkCharacterUpdate None None None None (Some (Some url)).

(** The click: [None] when the handler returns at its guard, else the
    prompt it sends. *)
Definition handleGenerateSceneImage_click (scene : Scene) (app : App)
  : App * option string :=
  if isGeneratingImage scene then (app, None)
  else (updateScene (s_id scene) (su_generating true) app,
        Some (imagePrompt scene)).

(** The request settles with a URL or with an error carrying [message]. *)
Definition handleGenerateSceneImage_settle (scene : Scene)
    (outcome : string + string) (app : App) : App * option string :=
  match outcome with
  | inr url => (updateScene (s_id scene) (su_image url) app, None)
  | inl message =>
      (updateScene (s_id scene) (su_generating false) app,
       Some (match message with
             | EmptyString => "Failed to generate scene image."%string
             | m => m
             end))
  end.

(** [char?.voiceName || 'Kore'] for the speaker of the line. *)
Definition voice_for (characters : list Character) (dialogue : Dialogue)
  : string :=
  match find (fun c => String.eqb (c_id c) (characterId dialogue)) characters with
  | Some ch =>
      match c_voiceName ch with
      | EmptyString => "Kore"%string
      | v => v
      end
  | None => "Kore"%string
  end.

(** The click: [None] at the guard, else the text and voice sent. *)
Definition handleGenerateAudio_click (characters : list Character)
    (sceneId : string) (dialogue : Dialogue) (app : App)
  : App * option (string * string) :=
  if isGeneratingAudio dialogue then (app, None)
  else (updateDialogue sceneId (d_id dialogue) (du_generating true) app,
        Some (text dialogue, voice_for characters dialogue)).

Definition handleGenerateAudio_settle (sceneId : string) (dialogue : Dialogue)
    (outcome : string + string) (app : App) : App * option string :=
  match outcome with
  | inr url => (updateDialogue sceneId (d_id dialogue) (du_audio url) app, None)
  | inl _ =>
      (updateDialogue sceneId (d_id dialogue) (du_generating false) app,
       Some "TTS generation failed"%string)
  end.

Definition handleGenerateCharacterImage_settle (char : Character)
    (outcome : string + string) (app : App) : App * option string :=
  match outcome with
  | inr url => (updateCharacter (c_id char) (cu_avatar url) app, None)
  | inl _ => (app, Some "Failed to generate character image"%string)
  end.

(** ** Generation service ([geminiService.ts])

    The parts of the service that run on the response of the model; the
    request itself belongs to the page. A thrown [Error(message)] is
    [inl message]. *)

Record InlineData := mkInlineData {
  inline_data : option string;
  inline_mimeType : option string
}.

Record Part := mkPart {
  part_text : option string;
  part_inlineData : option InlineData
}.

Record Content := mkContent { content_parts : option (list Part) }.

Record Candidate := mkCandidate { candidate_content : option Content }.

Record GenerateContentResponse := mkResponse {
  response_candidates : option (list Candidate)
}.

(** [response.candidates?.[0]?.content?.parts || []]. *)
Definition response_parts (response : GenerateContentResponse) : list Part :=
  match response_candidates response with
  | Some (c :: _) =>
      match candidate_content c with
      | Some ct => match content_parts ct with
                   | Some ps => ps
                   | None => []
                   end
      | None => []
      end
  | _ => []
  end.

(** A value inside a template literal. *)
Definition template (v : option string) : string :=
  match v with
  | Some s => s
  | None => "undefined"%string
  end.

(** The [for ... of] loop of the two image generators. *)
Fixpoint first_inline_image (ps : list Part) : option string :=
  match ps with
  | [] => None
  | part :: rest =>
      match part_inlineData part with
      | Some d =>
          Some ("data:image/png;base64," ++ template (inline_data d))%string
      | None => first_inline_image rest
      end
  end.

Definition generateCharacterImage (response : GenerateContentResponse)
  : string + string :=
  match first_inline_image (response_parts response) with
  | Some url => inr url
  | None => inl "Failed to generate character image"%string
  end.

Definition generateSceneImage (response : GenerateContentResponse)
  : string + string :=
  match first_inline_image (response_parts response) with
  | Some url => inr url
  | None => inl "Failed to generate scene image"%string
  end.

Definition validVoices : list string :=
  ["Puck"; "Charon"; "Kore"; "Fenrir"; "Zephyr"]%string.

(** [validVoices.includes(voiceName) ? voiceName : 'Kore']. *)
Definition selectedVoice (voiceName : string) : string :=
  if existsb (String.eqb voiceName) validVoices then voiceName
  else "Kore"%string.

(** *** WAV container ([wavify])

    A buffer is the list of its bytes, each a [Z] in 0..255. The
    [DataView] setters reduce the value to the width written, store it
    little-endian, and throw a [RangeError] ([None]) when the write does
    not fit in the buffer. *)

Fixpoint write_at (offset : nat) (bs : list Z) (buf : list Z) {struct buf}
  : list Z :=
  match bs with
  | [] => buf
  | v :: vs =>
      match buf with
      | [] => []
      | b :: rest =>
          match offset with
          | S k => b :: write_at k bs rest
          | O => v :: match vs with
                      | [] => rest
                      | _ :: _ => write_at 0 vs rest
                      end
          end
      end
  end.

Definition le16 (value : Z) : list Z :=
  [value mod 256; (value / 256) mod 256].

Definition le32 (value : Z) : list Z :=
  [value mod 256; (value / 256) mod 256; (value / 65536) mod 256;
   (value / 16777216) mod 256].

Definition set_bytes (offset : nat) (bs : list Z) (view : list Z)
  : option (list Z) :=
  if (offset + List.length bs <=? List.length view)%nat
  then Some (write_at offset bs view) else None.

Definition setUint8 (offset : nat) (value : Z) (view : list Z) :=
  set_bytes offset [value mod 256] view.

Definition setUint16 (offset : nat) (value : Z) (view : list Z) :=
  set_bytes offset (le16 value) view.

Definition setUint32 (offset : nat) (value : Z) (view : list Z) :=
  set_bytes offset (le32 value) view.

(** [DataView.getUint16 / getUint32(offset, true)]. *)
Definition getUint16 (offset : nat) (view : list Z) : option Z :=
  match skipn offset view with
  | b0 :: b1 :: _ => Some (b0 + 256 * b1)
  | _ => None
  end.

Definition getUint32 (offset : nat) (view : list Z) : option Z :=
  match skipn offset view with
  | b0 :: b1 :: b2 :: b3 :: _ =>
      Some (b0 + 256 * b1 + 65536 * b2 + 16777216 * b3)
  | _ => None
  end.

Definition charCode (c : ascii) : Z := Z.of_nat (nat_of_ascii c).

Fixpoint writeString (view : list Z) (offset : nat) (s : string)
  : option (list Z) :=
  match s with
  | EmptyString => Some view
  | String c rest =>
      match setUint8 offset (charCode c) view with
      | Some view' => writeString view' (S offset) rest
      | None => None
      end
  end.

Declare Scope buffer_scope.
Delimit Scope buffer_scope with buffer.
Notation "view <~ w ;; k" :=
  (match w with Some view => k | None => None end)
  (at level 61, w at next level, right associativity) : buffer_scope.

(** [wavify(pcmData, sampleRate)]: the bytes of the blob, for an integer
    sample rate. *)
Definition wavify (pcmData : list Z) (sampleRate : Z) : option (list Z) :=
  let numChannels := 1 in
  let bitsPerSample := 16 in
  let byteRate := (sampleRate * numChannels * bitsPerSample) / 8 in
  let blockAlign := (numChannels * bitsPerSample) / 8 in
  let dataSize := Z.of_nat (List.length pcmData) in
  let buffer := repeat 0 (44 + List.length pcmData) in
  (v <~ writeString buffer 0 "RIFF" ;;
   v <~ setUint32 4 (36 + dataSize) v ;;
   v <~ writeString v 8 "WAVE" ;;
   v <~ writeString v 12 "fmt " ;;
   v <~ setUint32 16 16 v ;;
   v <~ setUint16 20 1 v ;;
   v <~ setUint16 22 numChannels v ;;
   v <~ setUint32 24 sampleRate v ;;
   v <~ setUint32 28 byteRate v ;;
   v <~ setUint16 32 blockAlign v ;;
   v <~ setUint16 34 bitsPerSample v ;;
   v <~ writeString v 36 "data" ;;
   v <~ setUint32 40 dataSize v ;;
   set_bytes 44 pcmData v)%buffer.

(** The header [wavify] is meant to produce, field by field. *)
Definition wav_header (dataSize sampleRate : Z) : list Z :=
  [82; 73; 70; 70] ++ le32 (36 + dataSize)
  ++ [87; 65; 86; 69] ++ [102; 109; 116; 32]
  ++ le32 16 ++ le16 1 ++ le16 1
  ++ le32 sampleRate ++ le32 (2 * sampleRate) ++ le16 2 ++ le16 16
  ++ [100; 97; 116; 97] ++ le32 dataSize.

(** The thirteen header writes of [wavify] on their own. *)
Definition wav_write_header (buffer : list Z) (dataSize sampleRate : Z)
  : option (list Z) :=
  (v <~ writeString buffer 0 "RIFF" ;;
   v <~ setUint32 4 (36 + dataSize) v ;;
   v <~ writeString v 8 "WAVE" ;;
   v <~ writeString v 12 "fmt " ;;
   v <~ setUint32 16 16 v ;;
   v <~ setUint16 20 1 v ;;
   v <~ setUint16 22 1 v ;;
   v <~ setUint32 24 sampleRate v ;;
   v <~ setUint32 28 (sampleRate * 1 * 16 / 8) v ;;
   v <~ setUint16 32 (1 * 16 / 8) v ;;
   v <~ setUint16 34 16 v ;;
   v <~ writeString v 36 "data" ;;
   setUint32 40 dataSize v)%buffer.

(** A byte of a [Uint8Array]. *)
Definition is_byte (b : Z) : Prop := 0 <= b < 256.

(** [generateTTS] from the response on: the first part's audio, decoded
    by [atob] ([None] when it throws), wrapped as 24 kHz WAV. *)
Definition tts_base64 (response : GenerateContentResponse) : option string :=
  match response_parts response with
  | part :: _ =>
      match part_inlineData part with
      | Some d =>
          match inline_data d with
          | Some (String c s) => Some (String c s)
          | _ => None
          end
      | None => None
      end
  | [] => None
  end.

Inductive TTSResult :=
| NoAudio
| DecodeError
| RangeError
| WavBlob (bytes : list Z).

Definition generateTTS (atob : string -> option (list Z))
    (response : GenerateContentResponse) : TTSResult :=
  match tts_base64 response with
  | None => NoAudio
  | Some base64Audio =>
      match atob base64Audio with
      | None => DecodeError
      | Some bytes =>
          match wavify (map (fun b => b mod 256) bytes) 24000 with
          | Some blob => WavBlob blob
          | None => RangeError
          end
      end
  end.

(** * Properties *)

Unset Implicit Arguments.

(** ** Word wrap *)

Lemma append_nil_r (s : string) : (s ++ "")%string = s.
Proof. induction s as [|c s IH]; simpl; [reflexivity | now rewrite IH]. Qed.

Lemma append_assoc (a b c : string) :
  ((a ++ b) ++ c)%string = (a ++ (b ++ c))%string.
Proof. induction a as [|ch a IH]; simpl; [reflexivity | now rewrite IH]. Qed.

Lemma render_words_snoc (g : list string) (w : string) :
  render_words (g ++ [w]) = ((render_words g ++ w) ++ " ")%string.
Proof.
  induction g as [|v g IH]; simpl.
  - now rewrite append_nil_r.
  - rewrite IH. now rewrite !append_assoc.
Qed.

Lemma split_space_nonempty (s : string) : split_space s <> [].
Proof.
  induction s as [|c s IH]; simpl; [discriminate|].
  destruct (Ascii.eqb c " "); [discriminate|].
  destruct (split_space s); discriminate.
Qed.

Section WrapTextFacts.
Variable Width : Type.
Variable exceeds : Width -> Width -> bool.
Variable measureText : string -> Width.
Variables (x : Z) (maxWidth : Width) (lineHeight : Z).

Local Abbreviation wrap_loop := (wrap_loop exceeds measureText x maxWidth lineHeight).
Local Abbreviation laid_out := (laid_out x lineHeight).
Local Abbreviation fits_or_single := (fits_or_single exceeds measureText maxWidth).
Local Abbreviation greedy := (greedy exceeds measureText maxWidth).

(** Loop invariant: [line] renders the group [g] of words collected
    since the last flush; [g] is empty exactly before the first word. *)
Lemma wrap_loop_groups (words : list string) :
  forall (n : nat) (g : list string) (line : string) (y : Z),
    line = render_words g ->
    (n = 0%nat <-> g = []) ->
    (g = [] \/ fits_or_single g) ->
    exists more tail,
      wrap_loop words n line y = laid_out ((g ++ more) :: tail) y
      /\ List.concat ((g ++ more) :: tail) = g ++ words
      /\ Forall (fun gr => gr <> [] /\ fits_or_single gr) tail
      /\ (g ++ more = [] \/ fits_or_single (g ++ more))
      /\ (words <> [] \/ g <> [] -> g ++ more <> [])
      /\ greedy ((g ++ more) :: tail).
Proof.
  induction words as [|w rest IH]; intros n g line y Hline Hn Hg.
  - exists [], []. rewrite app_nil_r. simpl. subst line.
    split; [reflexivity|]. split; [now rewrite app_nil_r|].
    split; [constructor|]. split; [exact Hg|].
    split; [intros [E|E]; [congruence | exact E] |]. split; exact I.
  - simpl.
    destruct (exceeds (measureText ((line ++ w) ++ " ")%string) maxWidth
              && negb (Nat.eqb n 0)) eqn:Hov.
    + apply andb_true_iff in Hov as [Hex Hn0].
      apply negb_true_iff, Nat.eqb_neq in Hn0.
      assert (Hgne : g <> []) by (intro E; apply Hn0, Hn, E).
      destruct (IH (S n) [w] (w ++ " ")%string (y + lineHeight))
        as (more & tail & Hrun & Hcat & Hall & Hfirst & Hne & Hgreedy).
      * simpl. now rewrite append_nil_r.
      * split; discriminate.
      * right. right. reflexivity.
      * exists [], (([w] ++ more) :: tail). rewrite app_nil_r.
        rewrite Hrun. subst line.
        split; [reflexivity|].
        split; [simpl; simpl in Hcat; now rewrite Hcat|].
        split.
        { constructor; [|exact Hall]. split; [discriminate|].
          destruct Hfirst as [E|F]; [discriminate E | exact F]. }
        split.
        { destruct Hg as [E|F]; [contradiction | now right]. }
        split; [intros _; exact Hgne|].
        split; [|exact Hgreedy].
        simpl. now rewrite render_words_snoc.
    + destruct (IH (S n) (g ++ [w]) ((line ++ w) ++ " ")%string y)
        as (more & tail & Hrun & Hcat & Hall & Hfirst & Hne & Hgreedy).
      * subst line. now rewrite render_words_snoc.
      * split; [discriminate|]. intro E. now destruct g.
      * right. apply andb_false_iff in Hov as [Hfit|Hn0].
        -- left. subst line. now rewrite render_words_snoc.
        -- apply negb_false_iff, Nat.eqb_eq in Hn0.
           right. apply Hn in Hn0. now subst g.
      * exists ([w] ++ more), tail. rewrite app_assoc.
        rewrite Hrun.
        split; [reflexivity|].
        split; [simpl in Hcat; rewrite Hcat; now rewrite <- app_assoc|].
        split; [exact Hall|]. split; [exact Hfirst|].
        split; [|exact Hgreedy].
        intros _. apply Hne. right. now destruct g.
Qed.

Lemma laid_out_nth (groups : list (list string)) :
  forall (y : Z) (k : nat) (c : FillText),
    nth_error (laid_out groups y) k = Some c ->
    exists g, nth_error groups k = Some g
      /\ c = mkFillText (render_words g) x (y + Z.of_nat k * lineHeight).
Proof.
  induction groups as [|g gs IH]; intros y k c H.
  - destruct k; discriminate.
  - destruct k as [|k]; simpl in H.
    + injection H as <-. exists g. split; [reflexivity|].
      f_equal. lia.
    + destruct (IH _ _ _ H) as (g' & Hg' & ->).
      exists g'. split; [exact Hg'|]. f_equal. lia.
Qed.

(** C9 (as amended). The calls [wrapText] makes partition the words of
    the text, in order and unbroken, into non-empty groups; the k-th
    call draws its group, every word followed by one space, at
    [(x, y + k * lineHeight)]; a group whose drawn text measures more
    than [maxWidth] consists of a single word; and each line was
    flushed only because the next word would have made it overflow. *)
Theorem wrapText_greedy_lines (txt : string) (y : Z) :
  exists groups : list (list string),
    wrapText exceeds measureText x maxWidth lineHeight txt y = laid_out groups y
    /\ List.concat groups = split_space txt
    /\ Forall (fun g => g <> [] /\ fits_or_single g) groups
    /\ greedy groups
    /\ forall k c,
         nth_error (wrapText exceeds measureText x maxWidth lineHeight txt y) k
           = Some c ->
         exists g, nth_error groups k = Some g
           /\ c = mkFillText (render_words g) x (y + Z.of_nat k * lineHeight).
Proof.
  unfold wrapText.
  destruct (wrap_loop_groups (split_space txt) 0 [] EmptyString y)
    as (more & tail & Hrun & Hcat & Hall & Hfirst & Hne & Hgreedy);
    [reflexivity | tauto | now left |].
  simpl app in *. exists (more :: tail). rewrite Hrun.
  assert (Hmore : more <> [])
    by (apply Hne; left; apply split_space_nonempty).
  split; [reflexivity|]. split; [exact Hcat|].
  split; [|split; [exact Hgreedy|]].
  - constructor; [|exact Hall]. split; [exact Hmore|].
    destruct Hfirst as [E|F]; [contradiction | exact F].
  - intros k c H. now apply laid_out_nth.
Qed.

End WrapTextFacts.

(** C9 (as worded). With widths counted in characters and a limit of 3,
    the text [abc] is drawn as the line [abc ] of width 4, although the
    word on its own measures 3 and does not exceed the limit. *)
Lemma wrapText_line_overflows_though_word_fits :
  (forall s t : string, (String.length s <= String.length (s ++ t))%nat)
  /\ ~ (forall c,
          In c (wrapText (fun a b => (b <? a)%nat) String.length 640 3%nat 30
                  "abc" 640) ->
          (3 <? String.length (ft_text c))%nat = true ->
          exists w, In w (split_space "abc")
                    /\ (3 <? String.length w)%nat = true).
Proof.
  split.
  - intros s t. induction s as [|c s IH]; simpl; lia.
  - intro H.
    destruct (H (mkFillText "abc " 640 640)) as (w & Hin & Hw).
    + left. reflexivity.
    + reflexivity.
    + simpl in Hin. destruct Hin as [<-|[]]. discriminate Hw.
Qed.

(** ** Player *)

Section PlayerFacts.
Variable scenes : list Scene.
Variable host : Host.


Lemma deps_changed_refl (c : Cursor) : deps_changed c c = false.
Proof.
  unfold deps_changed.
  now rewrite !Nat.eqb_refl, Bool.eqb_reflx.
Qed.

Lemma cursor_render_effect (p : Player) :
  cursor (render_effect scenes p) = cursor p.
Proof.
  unfold render_effect.
  destruct (currentScene scenes (cursor p)); [|reflexivity].
  destruct (truthy _); [|reflexivity].
  destruct (isPlaying _); reflexivity.
Qed.

Lemma cursor_playNextDialogue (r : Cursor) (p : Player) :
  cursor (playNextDialogue scenes host r p) = cursor p.
Proof.
  unfold playNextDialogue.
  destruct (currentScene scenes r); [|reflexivity].
  destruct (_ <=? _)%nat; [reflexivity|].
  destruct (nth_error _ _); [|reflexivity].
  destruct (_ && _); reflexivity.
Qed.

Lemma cursor_sequencing_effect (p : Player) :
  cursor (sequencing_effect scenes host p) = cursor p.
Proof.
  unfold sequencing_effect.
  destruct (isPlaying _); [apply cursor_playNextDialogue|].
  destruct (audio_mounted _); reflexivity.
Qed.

Lemma cursor_commit (old : Cursor) (p : Player) :
  cursor (commit scenes host old p) = cursor p.
Proof.
  unfold commit. destruct (deps_changed _ _); [|reflexivity].
  now rewrite cursor_sequencing_effect, cursor_render_effect.
Qed.

Lemma commit_same (p : Player) : commit scenes host (cursor p) p = p.
Proof. unfold commit. now rewrite deps_changed_refl. Qed.

(** C5. While [isRecording] is true, the rewind, play/pause and
    next-scene buttons are disabled: a click on any of them leaves the
    whole component state as it was. *)
Theorem transport_controls_inert_while_recording (p : Player) (e : Event) :
  isRecording (cursor p) = true ->
  In e [ClickRewind; ClickPlayPause; ClickNext] ->
  step scenes host e p = p.
Proof.
  intros Hrec He. unfold step, dispatch.
  assert (Hd : disabled e (cursor p) = true).
  { simpl in He. destruct He as [<-|[<-|[<-|[]]]]; exact Hrec. }
  rewrite Hd. apply commit_same.
Qed.

(** C4 (as amended). Rewind sets both indices to 0 and leaves
    [isPlaying] and [isRecording] as they were. *)
Theorem rewind_resets_indices_only (p : Player) :
  isRecording (cursor p) = false ->
  cursor (step scenes host ClickRewind p)
  = mkCursor 0 0 (isPlaying (cursor p)) false.
Proof.
  intros Hrec. unfold step, dispatch.
  simpl disabled. rewrite Hrec. simpl fst.
  rewrite cursor_commit. simpl. now rewrite Hrec.
Qed.

Lemma next_scene_blocked (p : Player) :
  isRecording (cursor p) = true \/ before_last_scene scenes (cursor p) = false ->
  step scenes host ClickNext p = p.
Proof.
  intros H. unfold step, dispatch. simpl disabled.
  destruct (isRecording (cursor p)); [apply commit_same|].
  destruct H as [H|H]; [discriminate|].
  unfold onClick_next. rewrite H. apply commit_same.
Qed.

Lemma next_scene_advances (p : Player) :
  isRecording (cursor p) = false ->
  before_last_scene scenes (cursor p) = true ->
  cursor (step scenes host ClickNext p)
  = mkCursor (currentSceneIndex (cursor p) + 1)
             (currentDialogueIndex (cursor p))
             (isPlaying (cursor p)) (isRecording (cursor p)).
Proof.
  intros Hrec Hb. unfold step, dispatch. simpl disabled.
  rewrite Hrec. simpl fst. rewrite cursor_commit.
  unfold onClick_next. rewrite Hb. simpl. now rewrite Hrec.
Qed.

(** C10. The next-scene button changes nothing but [currentSceneIndex]:
    while not recording it adds one to the index whenever another scene
    follows ([currentSceneIndex + 1 < scenes.length]); on the last
    scene, past it, or with no scenes, the click changes nothing at all,
    so the index is never pushed beyond [scenes.length - 1]. The
    dialogue index is kept, not reset to 0. *)
Theorem next_scene_touches_scene_index_only (p : Player) :
  let c := cursor p in
  let c' := cursor (step scenes host ClickNext p) in
  currentDialogueIndex c' = currentDialogueIndex c
  /\ isPlaying c' = isPlaying c
  /\ isRecording c' = isRecording c
  /\ currentSceneIndex c'
     = (if negb (isRecording c)
           && (currentSceneIndex c + 1 <? List.length scenes)%nat
        then (currentSceneIndex c + 1)%nat else currentSceneIndex c)
  /\ (isRecording c = false ->
      (currentSceneIndex c + 1 < List.length scenes)%nat ->
      currentSceneIndex c' = (currentSceneIndex c + 1)%nat)
  /\ ((List.length scenes <= currentSceneIndex c + 1)%nat ->
      step scenes host ClickNext p = p)
  /\ (scenes = [] -> step scenes host ClickNext p = p)
  /\ (Z.of_nat (currentSceneIndex c) <= Z.of_nat (List.length scenes) - 1 ->
      Z.of_nat (currentSceneIndex c') <= Z.of_nat (List.length scenes) - 1).
Proof.
  intros c c'. subst c c'.
  assert (Hguard : before_last_scene scenes (cursor p)
                   = (currentSceneIndex (cursor p) + 1 <? List.length scenes)%nat).
  { unfold before_last_scene.
    destruct (Nat.ltb_spec (currentSceneIndex (cursor p) + 1) (List.length scenes));
      [apply Z.ltb_lt | apply Z.ltb_ge]; lia. }
  assert (Hlast : (List.length scenes <= currentSceneIndex (cursor p) + 1)%nat ->
                  step scenes host ClickNext p = p).
  { intros H. apply next_scene_blocked. right. rewrite Hguard.
    apply Nat.ltb_ge. exact H. }
  assert (Hempty : scenes = [] -> step scenes host ClickNext p = p).
  { intros H. apply Hlast. rewrite H. simpl. lia. }
  destruct (isRecording (cursor p)) eqn:Hrec;
    [|destruct (Nat.lt_ge_cases (currentSceneIndex (cursor p) + 1)
                 (List.length scenes)) as [Hlt|Hge]].
  - rewrite next_scene_blocked by now left.
    rewrite Hrec. simpl.
    split; [reflexivity|]. split; [reflexivity|]. split; [reflexivity|].
    split; [reflexivity|]. split; [discriminate|].
    split; [intros _; reflexivity|]. split; [intros _; reflexivity|].
    intros H; exact H.
  - assert (Hltb : (currentSceneIndex (cursor p) + 1 <? List.length scenes)%nat
                   = true) by now apply Nat.ltb_lt.
    assert (Hb : before_last_scene scenes (cursor p) = true)
      by (rewrite Hguard; exact Hltb).
    rewrite next_scene_advances by assumption. rewrite Hltb. simpl.
    split; [reflexivity|]. split; [reflexivity|]. split; [exact Hrec|].
    split; [reflexivity|]. split; [reflexivity|].
    split; [intros H; lia|]. split; [exact Hempty|].
    intros _. lia.
  - assert (Hltb : (currentSceneIndex (cursor p) + 1 <? List.length scenes)%nat
                   = false) by now apply Nat.ltb_ge.
    rewrite Hlast by exact Hge. rewrite Hrec, Hltb. simpl.
    split; [reflexivity|]. split; [reflexivity|]. split; [reflexivity|].
    split; [reflexivity|]. split; [intros _ H; lia|].
    split; [intros _; reflexivity|]. split; [intros _; reflexivity|].
    intros H; exact H.
Qed.

End PlayerFacts.

(** ** Reasoning rules for handlers *)

Section Triples.
Context {A B : Type}.
Variables (P : Player -> Prop) (E : Exn -> Player -> Prop).

Lemma triple_ret (a : A) (Q : A -> Player -> Prop) :
  (forall p, P p -> Q a p) -> triple P (ret a) Q E.
Proof. intros H p Hp. now apply H. Qed.

Lemma triple_throw (e : Exn) (Q : A -> Player -> Prop) :
  (forall p, P p -> E e p) -> triple P (throw e) Q E.
Proof. intros H p Hp. now apply H. Qed.

Lemma triple_bind (m : Handler A) (k : A -> Handler B)
    (R : A -> Player -> Prop) (Q : B -> Player -> Prop) :
  triple P m R E ->
  (forall a, triple (R a) (k a) Q E) ->
  triple P (bind m k) Q E.
Proof.
  intros Hm Hk p Hp. unfold bind. specialize (Hm p Hp).
  destruct (m p) as [p' [e|a]]; [exact Hm|].
  now apply Hk.
Qed.

Lemma triple_update (f : Player -> Player) (Q : unit -> Player -> Prop) :
  (forall p, P p -> Q tt (f p)) -> triple P (update f) Q E.
Proof. intros H p Hp. now apply H. Qed.

Lemma triple_read (f : Player -> A) (Q : A -> Player -> Prop) :
  (forall p, P p -> Q (f p) p) -> triple P (read f) Q E.
Proof. intros H p Hp. now apply H. Qed.

Lemma triple_host_call (t : option Exn) (Q : unit -> Player -> Prop) :
  (forall p, P p -> Q tt p) ->
  (forall e p, t = Some e -> P p -> E e p) ->
  triple P (host_call t) Q E.
Proof.
  intros Hok Hex p Hp. destruct t as [e|]; simpl.
  - now apply Hex.
  - now apply Hok.
Qed.
End Triples.

(** A property of the state that the refs of the recorder do not touch
    holds throughout [setupAudioContext], however it ends. *)
Lemma setupAudioContext_stable (host : Host) (I : Player -> Prop) :
  (forall v p, I p -> I (set_audioContextRef v p)) ->
  (forall v p, I p -> I (set_destinationRef v p)) ->
  (forall v p, I p -> I (set_sourceNodeRef v p)) ->
  triple I (setupAudioContext host) (fun _ => I) (fun _ => I).
Proof.
  intros H1 H2 H3. unfold setupAudioContext.
  eapply triple_bind with (R := fun _ => I);
    [apply triple_read; auto|].
  intros [ctx|]; [apply triple_ret; auto|].
  destruct (audio_mounted host); [|apply triple_ret; auto].
  repeat (eapply triple_bind with (R := fun _ => I);
          [first [apply triple_host_call | apply triple_update]; auto
          | intros _]).
  apply triple_update; auto.
Qed.

Section RecorderFacts.
Variable scenes : list Scene.
Variable host : Host.







End RecorderFacts.

(** ** The animation clock *)

(** A property that none of the setters used by [startRecording] can
    break holds after it, however it ends. *)
Lemma startRecording_stable (host : Host) (I : Player -> Prop) :
  (forall c p, I p -> I (set_cursor c p)) ->
  (forall v p, I p -> I (set_mediaRecorderRef v p)) ->
  (forall v p, I p -> I (set_recordedChunksRef v p)) ->
  (forall v p, I p -> I (set_audioContextRef v p)) ->
  (forall v p, I p -> I (set_destinationRef v p)) ->
  (forall v p, I p -> I (set_sourceNodeRef v p)) ->
  triple I (startRecording host) (fun _ => I) (fun _ => I).
Proof.
  intros Hc H1 H2 H3 H4 H5. unfold startRecording.
  destruct (negb (canvas_mounted host)); [apply triple_ret; auto|].
  repeat (eapply triple_bind with (R := fun _ => I);
          [first [ apply triple_host_call; now auto
                 | apply triple_update; intros; first [apply Hc | apply H1 | apply H2]; assumption
                 | apply setupAudioContext_stable; now auto
                 | apply triple_read; now auto
                 | match goal with
                   | |- triple _ (if ?d then _ else _) _ _ =>
                       destruct d; [apply triple_ret | apply triple_throw]; now auto
                   end ]
          | intros ?]).
  match goal with
  | |- triple _ (match ?c with _ => _ end) _ _ =>
      destruct c as [[|]|]; first [apply triple_update | apply triple_ret]; auto
  end.
Qed.

Section ClockFacts.
Variable scenes : list Scene.
Variable characters : list Character.
Variable host : Host.



Lemma startTimeRef_startRecording (p : Player) :
  startTimeRef (fst (startRecording host p)) = startTimeRef p.
Proof.
  pose proof (@startRecording_stable host
                (fun q => startTimeRef q = startTimeRef p)) as H.
  specialize (H (fun _ _ E => E) (fun _ _ E => E) (fun _ _ E => E)
                (fun _ _ E => E) (fun _ _ E => E) (fun _ _ E => E) p eq_refl).
  destruct (startRecording host p) as [p' [e|u]]; exact H.
Qed.





End ClockFacts.

(** ** Zoom and pan *)

Section TransformFacts.
Local Open Scope R_scope.

Lemma sin_full_turn (x : R) : sin (x + 2 * PI) = sin x.
Proof. rewrite sin_plus, sin_2PI, cos_2PI. lra. Qed.

Lemma sin_half_turn (x : R) : sin (x + PI) = - sin x.
Proof. rewrite sin_plus, sin_PI, cos_PI. lra. Qed.

Lemma sin_quarter_turn (x : R) : sin (PI / 2 + x) = cos x.
Proof. rewrite sin_plus, sin_PI2, cos_PI2. lra. Qed.

(** The first positive angle at which both sine and cosine are back at
    their values for 0 is a full turn. *)
Lemma full_turn_least (theta : R) :
  0 < theta -> sin theta = 0 -> cos theta = 1 -> 2 * PI <= theta.
Proof.
  intros Hpos Hsin Hcos.
  destruct (Rle_or_lt (2 * PI) theta) as [H|H]; [exact H|].
  destruct (sin_eq_O_2PI_0 theta) as [H0|[H1|H2]]; try lra.
  rewrite H1, cos_PI in Hcos. lra.
Qed.

(** C7 (as amended). For every elapsed time the zoom factor is
    [1 + 0.05 * sin(t * 0.0002)] and the pan is [20 * sin(t * 0.0001)],
    functions of the elapsed time alone. The zoom stays in
    [0.95, 1.05]. Its period is [10000 * PI] ms: it repeats after that
    time and after no shorter one, elapsed times from 0 on considered.
    After [5000 * PI] ms it is not back at its value but at the mirror
    image of it about 1. The pan stays in [-20, 20] and repeats after
    [20000 * PI] ms. *)
Theorem scale_range_and_period (t : R) :
  scale t = 1.0 + 0.05 * sin (t * 0.0002)
  /\ panX t = 20 * sin (t * 0.0001)
  /\ 0.95 <= scale t <= 1.05
  /\ scale (t + 10000 * PI) = scale t
  /\ scale (t + 5000 * PI) = 2 - scale t
  /\ (forall T : R,
        0 < T -> (forall s : R, 0 <= s -> scale (s + T) = scale s) ->
        10000 * PI <= T)
  /\ -20 <= panX t <= 20
  /\ panX (t + 20000 * PI) = panX t.
Proof.
  unfold scale, panX.
  split; [lra|]. split; [lra|].
  split; [pose proof (SIN_bound (t * 0.0002)); lra|].
  split.
  { replace ((t + 10000 * PI) * 0.0002) with (t * 0.0002 + 2 * PI) by lra.
    now rewrite sin_full_turn. }
  split.
  { replace ((t + 5000 * PI) * 0.0002) with (t * 0.0002 + PI) by lra.
    rewrite sin_half_turn. lra. }
  split.
  { intros T HT Hper.
    pose proof PI_RGT_0 as Hpi.
    assert (Hsin : sin (T * 0.0002) = 0).
    { pose proof (Hper 0 (Rle_refl 0)) as H.
      replace ((0 + T) * 0.0002) with (T * 0.0002) in H by lra.
      replace (0 * 0.0002) with 0 in H by lra.
      rewrite sin_0 in H. lra. }
    assert (Hcos : cos (T * 0.0002) = 1).
    { assert (Hs : 0 <= 2500 * PI) by lra.
      pose proof (Hper (2500 * PI) Hs) as H.
      replace ((2500 * PI + T) * 0.0002) with (PI / 2 + T * 0.0002) in H by lra.
      replace (2500 * PI * 0.0002) with (PI / 2) in H by lra.
      rewrite sin_quarter_turn, sin_PI2 in H. lra. }
    assert (H : 2 * PI <= T * 0.0002) by (apply full_turn_least; lra).
    lra. }
  split; [pose proof (SIN_bound (t * 0.0001)); lra|].
  replace ((t + 20000 * PI) * 0.0001) with (t * 0.0001 + 2 * PI) by lra.
  now rewrite sin_full_turn.
Qed.

(** C7 (as worded). [5000 * PI] ms is not a period of the zoom: at
    [2500 * PI] ms the factor is at its maximum 1.05, and [5000 * PI] ms
    later it is at its minimum 0.95. *)
Lemma scale_differs_after_5000_pi :
  scale (2500 * PI) = 1.05
  /\ scale (2500 * PI + 5000 * PI) = 0.95.
Proof.
  unfold scale. split.
  - replace (2500 * PI * 0.0002) with (PI / 2) by lra.
    rewrite sin_PI2. lra.
  - replace ((2500 * PI + 5000 * PI) * 0.0002) with (PI / 2 + PI) by lra.
    rewrite sin_half_turn, sin_PI2. lra.
Qed.

End TransformFacts.

(** ** Playback order *)

Section SequencerFacts.
Variable scenes : list Scene.
Variable host : Host.


Lemma play_through_app (a b : nat) :
  forall p,
    play_through scenes host (a + b) p
    = let (l1, q) := play_through scenes host a p in
      let (l2, q') := play_through scenes host b q in
      (l1 ++ l2, q').
Proof.
  induction a as [|a IH]; intros p.
  - simpl. now destruct (play_through scenes host b p).
  - simpl. destruct (next_event p) eqn:Hnext.
    + rewrite IH.
      destruct (play_through scenes host a (step scenes host e p)) as [l1 q].
      destruct (play_through scenes host b q) as [l2 q'].
      now rewrite app_assoc.
    + destruct b; simpl; [reflexivity|]. now rewrite Hnext.
Qed.

Lemma render_effect_page (p : Player) :
  timers (render_effect scenes p) = timers p
  /\ audioPlaying (render_effect scenes p) = audioPlaying p.
Proof.
  unfold render_effect.
  destruct (currentScene scenes (cursor p)); [|now split].
  destruct (truthy _); [|now split].
  destruct (isPlaying _); now split.
Qed.

(** The two effects, run for a playing render with nothing pending,
    arm exactly one continuation. *)
Lemma effects_arm_one_continuation (q : Player) (sc : Scene) :
  timers q = [] -> audioPlaying q = false ->
  isPlaying (cursor q) = true ->
  currentScene scenes (cursor q) = Some sc ->
  (currentDialogueIndex (cursor q) <= List.length (dialogues sc))%nat ->
  waiting scenes host (sequencing_effect scenes host (render_effect scenes q))
  /\ cursor (sequencing_effect scenes host (render_effect scenes q)) = cursor q.
Proof.
  intros Ht Ha Hplay Hsc Hj.
  split; [|now rewrite cursor_sequencing_effect, cursor_render_effect].
  destruct (render_effect_page q) as [Ht' Ha'].
  pose proof (cursor_render_effect scenes q) as Hc'.
  set (q' := render_effect scenes q) in *.
  rewrite Ht in Ht'. rewrite Ha in Ha'.
  unfold waiting. rewrite cursor_sequencing_effect, Hc'.
  split; [exact Hplay|]. exists sc. split; [exact Hsc|].
  unfold sequencing_effect, playNextDialogue. rewrite Hc', Hplay, Hsc.
  destruct (Nat.leb_spec (List.length (dialogues sc))
              (currentDialogueIndex (cursor q))) as [Hle|Hlt].
  - assert (Hnone : nth_error (dialogues sc) (currentDialogueIndex (cursor q))
                    = None) by now apply nth_error_None.
    rewrite Hnone. unfold setTimeout. simpl. rewrite Ht'.
    repeat split; auto. lia.
  - destruct (nth_error (dialogues sc) (currentDialogueIndex (cursor q)))
      as [d|] eqn:Hd; [|apply nth_error_None in Hd; lia].
    unfold has_audio.
    destruct (truthy (audioUrl d) && audio_mounted host); simpl.
    + now split.
    + unfold setTimeout. simpl. rewrite Ht'. now split.
Qed.

(** A waiting component with a line at the cursor moves to the next
    dialogue index when its continuation arrives. *)
Lemma line_ends (p : Player) (sc : Scene) (d : Dialogue) :
  waiting scenes host p ->
  currentScene scenes (cursor p) = Some sc ->
  nth_error (dialogues sc) (currentDialogueIndex (cursor p)) = Some d ->
  exists e,
    next_event p = Some e
    /\ waiting scenes host (step scenes host e p)
    /\ cursor (step scenes host e p)
       = mkCursor (currentSceneIndex (cursor p))
                  (currentDialogueIndex (cursor p) + 1)
                  true (isRecording (cursor p)).
Proof.
  intros (Hplay & sc' & Hsc' & Hw) Hsc Hd.
  rewrite Hsc in Hsc'. injection Hsc' as <-. rewrite Hd in Hw.
  assert (Hlt : (currentDialogueIndex (cursor p) < List.length (dialogues sc))%nat)
    by (apply nth_error_Some; congruence).
  assert (Hchanged : forall q,
             cursor q = mkCursor (currentSceneIndex (cursor p))
                                 (currentDialogueIndex (cursor p) + 1)
                                 true (isRecording (cursor p)) ->
             deps_changed (cursor p) (cursor q) = true).
  { intros q ->. unfold deps_changed. simpl.
    replace (currentDialogueIndex (cursor p) =? currentDialogueIndex (cursor p) + 1)%nat
      with false by (symmetry; apply Nat.eqb_neq; lia).
    now rewrite andb_false_r. }
  destruct (has_audio host d) eqn:Haudio.
  - destruct Hw as [Ht Ha]. exists AudioEnded.
    split; [unfold next_event; now rewrite Ht, Ha|].
    unfold step, dispatch. simpl disabled. cbv iota.
    rewrite Ha. simpl fst. unfold handleDialogueEnd. rewrite Hplay. simpl negb.
    cbv iota.
    set (q := setCurrentDialogueIndex _ _).
    assert (Hq : cursor q = mkCursor (currentSceneIndex (cursor p))
                                     (currentDialogueIndex (cursor p) + 1)
                                     true (isRecording (cursor p)))
      by (subst q; simpl; now rewrite Hplay).
    unfold commit. rewrite (Hchanged q Hq).
    destruct (effects_arm_one_continuation q sc) as [Hw' Hc'];
      try (rewrite Hq; simpl; auto; lia);
      try (subst q; simpl; auto).
    split; [exact Hw'|]. now rewrite Hc'.
  - destruct Hw as [Ht Ha]. exists (TimerFires 0).
    split; [unfold next_event; now rewrite Ht|].
    unfold step, dispatch. simpl disabled. cbv iota.
    rewrite Ht. simpl nth_error. cbv iota beta. simpl fst.
    unfold run_timer, handleDialogueEnd. rewrite Hplay. simpl negb. cbv iota.
    set (q := setCurrentDialogueIndex _ _).
    assert (Hq : cursor q = mkCursor (currentSceneIndex (cursor p))
                                     (currentDialogueIndex (cursor p) + 1)
                                     true (isRecording (cursor p)))
      by (subst q; simpl; now rewrite Hplay).
    unfold commit. rewrite (Hchanged q Hq).
    destruct (effects_arm_one_continuation q sc) as [Hw' Hc'];
      try (rewrite Hq; simpl; auto; lia);
      try (subst q; simpl; auto).
    split; [exact Hw'|]. now rewrite Hc'.
Qed.

Lemma before_last_scene_iff (c : Cursor) :
  before_last_scene scenes c = true
  <-> (currentSceneIndex c + 1 < List.length scenes)%nat.
Proof. unfold before_last_scene. rewrite Z.ltb_lt. lia. Qed.

(** At the end of a scene that is not the last one, the inter-scene
    timer moves the cursor to the first line of the next scene. *)
Lemma scene_ends (p : Player) (sc next : Scene) :
  waiting scenes host p ->
  currentScene scenes (cursor p) = Some sc ->
  nth_error (dialogues sc) (currentDialogueIndex (cursor p)) = None ->
  nth_error scenes (currentSceneIndex (cursor p) + 1) = Some next ->
  next_event p = Some (TimerFires 0)
  /\ waiting scenes host (step scenes host (TimerFires 0) p)
  /\ cursor (step scenes host (TimerFires 0) p)
     = mkCursor (currentSceneIndex (cursor p) + 1) 0 true
                (isRecording (cursor p)).
Proof.
  intros (Hplay & sc' & Hsc' & Hw) Hsc Hd Hnext.
  rewrite Hsc in Hsc'. injection Hsc' as <-. rewrite Hd in Hw.
  destruct Hw as (Hj & Ht & Ha).
  split; [unfold next_event; now rewrite Ht|].
  assert (Hb : before_last_scene scenes (cursor p) = true).
  { apply before_last_scene_iff. apply nth_error_Some. congruence. }
  unfold step, dispatch. simpl disabled. cbv iota.
  rewrite Ht. simpl nth_error. cbv iota beta. simpl fst.
  unfold run_timer, sceneFinished. rewrite Hb.
  set (q := setCurrentDialogueIndex _ _).
  assert (Hq : cursor q = mkCursor (currentSceneIndex (cursor p) + 1) 0 true
                                   (isRecording (cursor p)))
    by (subst q; simpl; now rewrite Hplay).
  assert (Hchanged : deps_changed (cursor p) (cursor q) = true).
  { rewrite Hq. unfold deps_changed. simpl.
    replace (currentSceneIndex (cursor p) =? currentSceneIndex (cursor p) + 1)%nat
      with false by (symmetry; apply Nat.eqb_neq; lia).
    reflexivity. }
  unfold commit. rewrite Hchanged.
  destruct (effects_arm_one_continuation q next) as [Hw' Hc'];
    try (rewrite Hq; simpl; auto; lia);
    try (subst q; simpl; auto).
  split; [exact Hw'|]. now rewrite Hc'.
Qed.

(** At the end of the last scene the timer stops playback and nothing
    is left pending. *)
Lemma playback_ends (p : Player) (sc : Scene) :
  waiting scenes host p ->
  currentScene scenes (cursor p) = Some sc ->
  nth_error (dialogues sc) (currentDialogueIndex (cursor p)) = None ->
  nth_error scenes (currentSceneIndex (cursor p) + 1) = None ->
  next_event p = Some (TimerFires 0)
  /\ cursor (step scenes host (TimerFires 0) p)
     = mkCursor (currentSceneIndex (cursor p))
                (currentDialogueIndex (cursor p)) false
                (isRecording (cursor p))
  /\ next_event (step scenes host (TimerFires 0) p) = None.
Proof.
  intros (Hplay & sc' & Hsc' & Hw) Hsc Hd Hnext.
  rewrite Hsc in Hsc'. injection Hsc' as <-. rewrite Hd in Hw.
  destruct Hw as (Hj & Ht & Ha).
  split; [unfold next_event; now rewrite Ht|].
  assert (Hb : before_last_scene scenes (cursor p) = false).
  { destruct (before_last_scene scenes (cursor p)) eqn:Hb; [|reflexivity].
    apply before_last_scene_iff in Hb. apply nth_error_None in Hnext. lia. }
  unfold step, dispatch. simpl disabled. cbv iota.
  rewrite Ht. simpl nth_error. cbv iota beta. simpl fst.
  unfold run_timer, sceneFinished. rewrite Hb.
  set (q := stopRecording _).
  assert (Hq : cursor q = mkCursor (currentSceneIndex (cursor p))
                                   (currentDialogueIndex (cursor p)) false
                                   (isRecording (cursor p))
               /\ timers q = [] /\ audioPlaying q = false).
  { subst q. unfold stopRecording. simpl.
    destruct (mediaRecorderRef p) as [[|]|]; simpl; auto. }
  destruct Hq as (Hq & Htq & Haq).
  assert (Hchanged : deps_changed (cursor p) (cursor q) = true).
  { rewrite Hq. unfold deps_changed. simpl. rewrite Hplay.
    now rewrite !Nat.eqb_refl. }
  unfold commit. rewrite Hchanged.
  rewrite cursor_sequencing_effect, cursor_render_effect.
  split; [exact Hq|].
  destruct (render_effect_page q) as [Ht' Ha'].
  unfold sequencing_effect. rewrite cursor_render_effect, Hq. simpl isPlaying.
  cbv iota. unfold next_event.
  destruct (audio_mounted host); simpl; rewrite Ht', Htq; [reflexivity|].
  now rewrite Ha', Haq.
Qed.

(** The lines of one scene, from dialogue [j] on, in index order. *)
Lemma scene_plays_in_index_order (sc : Scene) (k : nat) :
  forall (j : nat) (p : Player),
    waiting scenes host p ->
    currentScene scenes (cursor p) = Some sc ->
    currentDialogueIndex (cursor p) = j ->
    (j + k = List.length (dialogues sc))%nat ->
    exists ls q,
      play_through scenes host k p = (ls, q)
      /\ active_line scenes p ++ ls
         = map (fun j' => (currentSceneIndex (cursor p), j')) (seq j k)
      /\ waiting scenes host q
      /\ cursor q = mkCursor (currentSceneIndex (cursor p))
                             (List.length (dialogues sc)) true
                             (isRecording (cursor p)).
Proof.
  induction k as [|k IH]; intros j p Hw Hsc Hj Hlen.
  - exists [], p. simpl. rewrite app_nil_r.
    assert (Hnone : nth_error (dialogues sc) (currentDialogueIndex (cursor p))
                    = None) by (apply nth_error_None; lia).
    unfold active_line, currentDialogueObj. rewrite Hsc, Hnone.
    split; [reflexivity|]. split; [reflexivity|]. split; [exact Hw|].
    destruct Hw as [Hplay _]. destruct (cursor p) as [i j' pl rc].
    simpl in *. subst. f_equal. lia.
  - destruct (nth_error (dialogues sc) (currentDialogueIndex (cursor p)))
      as [d|] eqn:Hd; [|apply nth_error_None in Hd; lia].
    destruct (line_ends p sc d Hw Hsc Hd) as (e & Hnext & Hw1 & Hc1).
    destruct (IH (S j) (step scenes host e p)) as (ls & q & Hrun & Hlines & Hwq & Hcq).
    + exact Hw1.
    + unfold currentScene in *. now rewrite Hc1.
    + rewrite Hc1. simpl. lia.
    + lia.
    + exists (active_line scenes (step scenes host e p) ++ ls), q.
      simpl. rewrite Hnext, Hrun.
      split; [reflexivity|]. rewrite Hlines, Hc1. simpl.
      split; [|split; [exact Hwq | now rewrite Hcq, Hc1]].
      unfold active_line at 1, currentDialogueObj.
      rewrite Hsc, Hd. destruct Hw as [Hplay _]. rewrite Hplay, Hj.
      reflexivity.
Qed.

(** From the first line of a scene to the end of the project. *)
Lemma scenes_play_in_array_order (rest : list Scene) :
  forall (done : list Scene) (sc : Scene) (p : Player),
    scenes = done ++ sc :: rest ->
    waiting scenes host p ->
    currentSceneIndex (cursor p) = List.length done ->
    currentDialogueIndex (cursor p) = 0%nat ->
    exists ls q,
      play_through scenes host (run_length (sc :: rest)) p = (ls, q)
      /\ active_line scenes p ++ ls = array_order_lines (List.length done) (sc :: rest)
      /\ isPlaying (cursor q) = false
      /\ next_event q = None.
Proof.
  induction rest as [|next rest IH]; intros done sc p Hsplit Hw Hi Hj.
  - assert (Hsc : currentScene scenes (cursor p) = Some sc).
    { unfold currentScene. rewrite Hi, Hsplit.
      now rewrite nth_error_app2, Nat.sub_diag by lia. }
    destruct (scene_plays_in_index_order sc (List.length (dialogues sc)) 0 p)
      as (ls & q & Hrun & Hlines & Hwq & Hcq); auto.
    assert (Hscq : currentScene scenes (cursor q) = Some sc)
      by (unfold currentScene in *; now rewrite Hcq).
    assert (Hnone : nth_error (dialogues sc) (currentDialogueIndex (cursor q))
                    = None)
      by (apply nth_error_None; rewrite Hcq; simpl; lia).
    assert (Hlast : nth_error scenes (currentSceneIndex (cursor q) + 1) = None).
    { apply nth_error_None. rewrite Hcq, Hsplit, length_app. simpl. lia. }
    destruct (playback_ends q sc Hwq Hscq Hnone Hlast) as (Hnext & Hc & Hstop).
    exists ls, (step scenes host (TimerFires 0) q).
    simpl run_length. rewrite Nat.add_0_r, play_through_app, Hrun.
    simpl. rewrite Hnext.
    assert (Hact : active_line scenes (step scenes host (TimerFires 0) q) = []).
    { unfold active_line. rewrite Hc. simpl.
      now destruct (currentDialogueObj scenes _). }
    rewrite Hact. simpl. rewrite !app_nil_r.
    split; [reflexivity|]. split; [now rewrite Hlines, Hi|].
    split; [now rewrite Hc | exact Hstop].
  - assert (Hsc : currentScene scenes (cursor p) = Some sc).
    { unfold currentScene. rewrite Hi, Hsplit.
      now rewrite nth_error_app2, Nat.sub_diag by lia. }
    destruct (scene_plays_in_index_order sc (List.length (dialogues sc)) 0 p)
      as (ls & q & Hrun & Hlines & Hwq & Hcq); auto.
    assert (Hscq : currentScene scenes (cursor q) = Some sc)
      by (unfold currentScene in *; now rewrite Hcq).
    assert (Hnone : nth_error (dialogues sc) (currentDialogueIndex (cursor q))
                    = None)
      by (apply nth_error_None; rewrite Hcq; simpl; lia).
    assert (Hsplit' : scenes = (done ++ [sc]) ++ next :: rest)
      by (now rewrite <- app_assoc).
    assert (Hnext : nth_error scenes (currentSceneIndex (cursor q) + 1)
                    = Some next).
    { rewrite Hcq. simpl. rewrite Hi, Hsplit'.
      rewrite nth_error_app2; rewrite length_app; simpl; [|lia].
      now rewrite Nat.sub_diag. }
    destruct (scene_ends q sc next Hwq Hscq Hnone Hnext) as (Hev & Hw2 & Hc2).
    destruct (IH (done ++ [sc]) next (step scenes host (TimerFires 0) q))
      as (ls2 & q2 & Hrun2 & Hlines2 & Hplay2 & Hstop2); auto.
    + rewrite Hc2, Hcq. simpl. rewrite length_app. simpl. lia.
    + now rewrite Hc2.
    + exists (ls ++ active_line scenes (step scenes host (TimerFires 0) q) ++ ls2), q2.
      change (run_length (sc :: next :: rest))
        with (List.length (dialogues sc) + 1 + run_length (next :: rest))%nat.
      rewrite <- Nat.add_assoc, play_through_app, Hrun.
      change (1 + run_length (next :: rest))%nat
        with (S (run_length (next :: rest))).
      cbn [play_through]. rewrite Hev, Hrun2.
      split; [reflexivity|]. split; [|now split].
      rewrite app_assoc, Hlines, Hlines2, Hi.
      rewrite length_app. simpl.
      now replace (List.length done + 1)%nat with (S (List.length done)) by lia.
Qed.

Lemma play_through_stopped (fuel : nat) (p : Player) :
  next_event p = None -> play_through scenes host fuel p = ([], p).
Proof. intros H. destruct fuel; simpl; [reflexivity | now rewrite H]. Qed.

(** The [order] fields met along the storage order are the fields as
    stored, each repeated once per line of its scene. *)
Lemma visited_orders_array_order (rest : list Scene) :
  forall done : list Scene,
    visited_orders (done ++ rest) (array_order_lines (List.length done) rest)
    = flat_map (fun sc => repeat (order sc) (List.length (dialogues sc))) rest.
Proof.
  induction rest as [|sc rest IH]; intros done; [reflexivity|].
  simpl. unfold visited_orders in *. rewrite flat_map_app. f_equal.
  - generalize (List.length (dialogues sc)) as n. intros n.
    generalize 0%nat as j.
    induction n as [|n IHn]; intros j; [reflexivity|].
    simpl. rewrite nth_error_app2, Nat.sub_diag by lia. simpl.
    now rewrite IHn.
  - specialize (IH (done ++ [sc])). rewrite <- app_assoc in IH. simpl in IH.
    rewrite length_app in IH. simpl in IH.
    now replace (List.length done + 1)%nat with (S (List.length done)) in IH
      by lia.
Qed.

(** Stored in ascending [order], the scenes are met in ascending
    [order]. *)
Lemma repeated_orders_sorted (ss : list Scene) :
  StronglySorted Z.le (map order ss) ->
  StronglySorted Z.le
    (flat_map (fun sc => repeat (order sc) (List.length (dialogues sc))) ss).
Proof.
  induction ss as [|sc ss IH]; intros Hsorted; [constructor|].
  simpl in *. inversion Hsorted as [|o os Hrest Hall]; subst.
  specialize (IH Hrest).
  assert (Hall' : Forall (Z.le (order sc))
                    (flat_map (fun sc' => repeat (order sc')
                                 (List.length (dialogues sc'))) ss)).
  { apply Forall_forall. intros z Hz. apply in_flat_map in Hz.
    destruct Hz as (sc' & Hin & Hz). apply repeat_spec in Hz. subst z.
    rewrite Forall_forall in Hall. apply Hall. now apply in_map. }
  induction (List.length (dialogues sc)) as [|n IHn]; simpl; [exact IH|].
  constructor; [exact IHn|].
  apply Forall_app. split; [|exact Hall'].
  apply Forall_forall. intros z Hz. apply repeat_spec in Hz. subst z. lia.
Qed.

(** C2 (as amended). Started on a project with at least one scene and
    left alone, playback shows every line exactly once, scene by scene
    in the order the array stores them and inside a scene by dialogue
    index, then stops with [isPlaying = false] and nothing pending; the
    [order] fields are met in stored sequence, whatever their values,
    hence in ascending order when the array is stored sorted by them. *)
Theorem playback_visits_lines_in_array_order (fuel : nat) :
  scenes <> [] ->
  (run_length scenes <= fuel)%nat ->
  fst (playback scenes host fuel) = array_order_lines 0 scenes
  /\ visited_orders scenes (fst (playback scenes host fuel))
     = flat_map (fun sc => repeat (order sc) (List.length (dialogues sc))) scenes
  /\ (StronglySorted Z.le (map order scenes) ->
      StronglySorted Z.le
        (visited_orders scenes (fst (playback scenes host fuel))))
  /\ isPlaying (cursor (snd (playback scenes host fuel))) = false
  /\ next_event (snd (playback scenes host fuel)) = None.
Proof.
  intros Hne Hfuel.
  destruct scenes as [|sc rest] eqn:Hscenes; [contradiction|].
  rewrite <- Hscenes in *.
  assert (Hstart : waiting scenes host (step scenes host ClickPlayPause mount)
                   /\ cursor (step scenes host ClickPlayPause mount)
                      = mkCursor 0 0 true false).
  { unfold step, dispatch. simpl disabled. cbv iota. simpl fst.
    unfold commit.
    replace (deps_changed (cursor mount) (cursor (onClick_playPause mount)))
      with true by reflexivity.
    destruct (effects_arm_one_continuation (onClick_playPause mount) sc)
      as [Hw Hc]; try reflexivity.
    - unfold currentScene. now rewrite Hscenes.
    - simpl. lia.
    - split; [exact Hw | now rewrite Hc]. }
  destruct Hstart as [Hw Hc].
  destruct (scenes_play_in_array_order rest [] sc (step scenes host ClickPlayPause mount))
    as (ls & q & Hrun & Hlines & Hplay & Hstop);
    [exact Hscenes | exact Hw | now rewrite Hc | now rewrite Hc |].
  rewrite <- Hscenes in Hrun, Hlines. simpl List.length in Hlines.
  assert (Hpb : playback scenes host fuel
                = (active_line scenes (step scenes host ClickPlayPause mount) ++ ls, q)).
  { unfold playback.
    replace fuel with (run_length scenes + (fuel - run_length scenes))%nat
      by lia.
    rewrite play_through_app, Hrun, (play_through_stopped _ _ Hstop).
    now rewrite app_nil_r. }
  rewrite Hpb. simpl fst. simpl snd. rewrite Hlines.
  split; [reflexivity|].
  pose proof (visited_orders_array_order scenes []) as Hord.
  simpl in Hord. rewrite Hord.
  split; [reflexivity|]. split; [apply repeated_orders_sorted | now split].
Qed.

End SequencerFacts.

(** ** Dwell of a line without audio *)

Section DwellFacts.
Variable scenes : list Scene.
Variable host : Host.

Lemma playPromises_render_effect (p : Player) :
  playPromises (render_effect scenes p) = playPromises p.
Proof.
  unfold render_effect.
  destruct (currentScene scenes (cursor p)); [|reflexivity].
  destruct (truthy _); [|reflexivity].
  destruct (isPlaying _); reflexivity.
Qed.

(** C8. When a render makes a line without audio current while playing,
    the page gets exactly one new pending timer: its delay is
    [max(2000, 50 * text.length)] milliseconds and its callback is
    [handleDialogueEnd] of that render; nothing else is started. The
    line is the one on screen until that timer fires, and when it fires
    the cursor moves to the next dialogue index. With nothing else
    pending the wait for the next event is exactly that delay. The delay
    is at least 2000 and grows with the length of the text. *)
Theorem silent_line_dwell (old : Cursor) (p : Player) (sc : Scene)
    (d : Dialogue) :
  deps_changed old (cursor p) = true ->
  isPlaying (cursor p) = true ->
  currentScene scenes (cursor p) = Some sc ->
  nth_error (dialogues sc) (currentDialogueIndex (cursor p)) = Some d ->
  truthy (audioUrl d) = false ->
  let delay := Z.max 2000 (50 * Z.of_nat (String.length (text d))) in
  let q := commit scenes host old p in
  let fired := step scenes host (TimerFires (List.length (timers p))) q in
  timers q = timers p ++ [(delay, DialogueEnd (cursor p))]
  /\ cursor q = cursor p
  /\ audioPlaying q = audioPlaying p
  /\ playPromises q = playPromises p
  /\ active_line scenes q
     = [(currentSceneIndex (cursor p), currentDialogueIndex (cursor p))]
  /\ cursor fired
     = mkCursor (currentSceneIndex (cursor p))
                (currentDialogueIndex (cursor p) + 1)
                true (isRecording (cursor p))
  /\ (timers p = [] ->
      next_event q = Some (TimerFires 0)
      /\ next_delay q = delay
      /\ play_through_time scenes host 1 q = delay)
  /\ 2000 <= delay
  /\ (forall d' : Dialogue,
        (String.length (text d) <= String.length (text d'))%nat ->
        delay <= Z.max 2000 (50 * Z.of_nat (String.length (text d')))).
Proof.
  intros Hdeps Hplay Hsc Hd Haudio delay q fired.
  assert (Hlt : (currentDialogueIndex (cursor p) < List.length (dialogues sc))%nat)
    by (apply nth_error_Some; congruence).
  assert (Hleb : (List.length (dialogues sc) <=? currentDialogueIndex (cursor p))%nat
                 = false) by (apply Nat.leb_gt; exact Hlt).
  destruct (render_effect_page scenes p) as [Ht Ha].
  pose proof (cursor_render_effect scenes p) as Hc.
  assert (Hq : q = setTimeout (DialogueEnd (cursor p)) delay (render_effect scenes p)).
  { subst q. unfold commit. rewrite Hdeps.
    unfold sequencing_effect, playNextDialogue.
    rewrite Hc, Hplay, Hsc, Hleb, Hd, Haudio. simpl andb. cbv iota.
    unfold dwell, delay. now rewrite Z.mul_comm. }
  pose proof (playPromises_render_effect p) as Hpromises.
  assert (Htq : timers q = timers p ++ [(delay, DialogueEnd (cursor p))])
    by (rewrite Hq; unfold setTimeout; simpl; now rewrite Ht).
  assert (Hcq : cursor q = cursor p)
    by (rewrite Hq; unfold setTimeout; simpl; exact Hc).
  split; [exact Htq|]. split; [exact Hcq|].
  split; [rewrite Hq; unfold setTimeout; simpl; exact Ha|].
  split; [rewrite Hq; unfold setTimeout; simpl; exact Hpromises|].
  split.
  { unfold active_line, currentDialogueObj. now rewrite Hcq, Hsc, Hd, Hplay. }
  split.
  { subst fired. unfold step. rewrite cursor_commit.
    unfold dispatch. simpl disabled. cbv iota.
    rewrite Htq, nth_error_app2 by lia.
    rewrite Nat.sub_diag. simpl nth_error. cbv iota beta. simpl fst.
    unfold run_timer, handleDialogueEnd. rewrite Hplay. simpl negb. cbv iota.
    simpl. rewrite Hcq. now rewrite Hplay. }
  split.
  { intros Hnone. rewrite Hnone in Htq. simpl in Htq.
    unfold next_event, next_delay. simpl play_through_time.
    unfold next_event, next_delay. rewrite Htq.
    split; [reflexivity|]. split; [reflexivity|]. lia. }
  split; [unfold delay; lia|].
  intros d' Hlen. unfold delay. lia.
Qed.

End DwellFacts.

(** ** Concrete runs *)

(** C2 (as worded). A project whose [order] fields are the dense index
    0, 1 but which stores scene 1 first is played in storage order: the
    scene with [order = 1] comes before the scene with [order = 0]. *)
Lemma playback_follows_storage_not_order_field :
  dense_order stored_out_of_order
  /\ fst (playback stored_out_of_order capable_host 10) = [(0, 0); (1, 0)]%nat
  /\ visited_orders stored_out_of_order
       (fst (playback stored_out_of_order capable_host 10)) = [1; 0].
Proof.
  split; [|split; reflexivity].
  intros k. simpl. split.
  - intros Hk. destruct k as [|[|k]]; [right; left | left |]; simpl; lia.
  - intros [H|[H|[]]]; lia.
Qed.

(** The run of the specification's example: two scenes with two and one
    lines are visited as (0,0), (0,1), (1,0), and playback then stops. *)
Lemma playback_visits_lines_in_array_order_witness :
  two_scenes <> []
  /\ (run_length two_scenes <= 5)%nat
  /\ fst (playback two_scenes capable_host 5) = [(0, 0); (0, 1); (1, 0)]%nat
  /\ isPlaying (cursor (snd (playback two_scenes capable_host 5))) = false.
Proof.
  assert (Hne : two_scenes <> []) by discriminate.
  assert (Hfuel : (run_length two_scenes <= 5)%nat) by (simpl; lia).
  split; [exact Hne|]. split; [exact Hfuel|].
  destruct (playback_visits_lines_in_array_order two_scenes capable_host 5
              Hne Hfuel) as (Hlines & _ & _ & Hstop & _).
  split; [exact Hlines | exact Hstop].
Defined.



(** C3. Play, then pause at (0,0): the dwell timer armed by the playing
    render is still pending, and when it fires its stale [isPlaying]
    lets it advance the paused cursor to (0,1); resuming then shows line
    (0,1), so the line that was active before the pause is cut short. *)
Lemma stale_dwell_timer_advances_paused_cursor :
  let playing := step two_scenes capable_host ClickPlayPause mount in
  let paused := step two_scenes capable_host ClickPlayPause playing in
  let later := step two_scenes capable_host (TimerFires 0) paused in
  let resumed := step two_scenes capable_host ClickPlayPause later in
  active_line two_scenes playing = [(0, 0)]%nat
  /\ cursor paused = mkCursor 0 0 false false
  /\ timers paused = [(2000, DialogueEnd (mkCursor 0 0 true false))]
  /\ cursor later = mkCursor 0 1 false false
  /\ active_line two_scenes resumed = [(0, 1)]%nat.
Proof. repeat split. Qed.

(** The inter-scene timer has no guard at all: paused at the end of the
    first scene, the cursor still jumps to the next scene. *)
Lemma scene_timer_advances_paused_cursor :
  let paused :=
    run two_scenes capable_host
        [ClickPlayPause; TimerFires 0; TimerFires 0; ClickPlayPause] mount in
  cursor paused = mkCursor 0 2 false false
  /\ cursor (step two_scenes capable_host (TimerFires 0) paused)
     = mkCursor 1 0 false false.
Proof. repeat split. Qed.

(** C4 (as worded). Rewinding while the second line is playing resets
    the indices but playback goes on: the cursor is (0,0,true,false). *)
Lemma rewind_while_playing_keeps_playing :
  let playing :=
    run two_scenes capable_host [ClickPlayPause; TimerFires 0] mount in
  cursor playing = mkCursor 0 1 true false
  /\ cursor (step two_scenes capable_host ClickRewind playing)
     = mkCursor 0 0 true false.
Proof. repeat split. Qed.

Lemma rewind_resets_indices_only_witness :
  let playing :=
    run two_scenes capable_host [ClickPlayPause; TimerFires 0] mount in
  isRecording (cursor playing) = false
  /\ cursor (step two_scenes capable_host ClickRewind playing)
     = mkCursor 0 0 true false.
Proof.
  intros playing. split; [reflexivity|].
  exact (rewind_resets_indices_only two_scenes capable_host playing eq_refl).
Defined.

Lemma transport_controls_inert_while_recording_witness :
  let recording := step two_scenes capable_host ClickRecord mount in
  isRecording (cursor recording) = true
  /\ step two_scenes capable_host ClickNext recording = recording.
Proof.
  intros recording. split; [reflexivity|].
  apply (transport_controls_inert_while_recording two_scenes capable_host);
    [reflexivity | simpl; auto].
Defined.


(** C8 on the first line of [two_scenes]: pressing play arms one timer of
    2000 ms, and when it fires the second line becomes current. *)
Lemma silent_line_dwell_witness :
  let q := step two_scenes capable_host ClickPlayPause mount in
  timers q = [(2000, DialogueEnd (mkCursor 0 0 true false))]
  /\ active_line two_scenes q = [(0%nat, 0%nat)]
  /\ cursor (step two_scenes capable_host (TimerFires 0) q)
     = mkCursor 0 1 true false
  /\ play_through_time two_scenes capable_host 1 q = 2000.
Proof.
  intros q.
  pose proof (silent_line_dwell two_scenes capable_host
                (mkCursor 0 0 false false) (setIsPlaying true mount)
                (scene_of 0 [silent "hello"; silent "world"])
                (silent "hello") eq_refl eq_refl eq_refl eq_refl eq_refl) as H.
  cbv zeta in H.
  destruct H as (Ht & _ & _ & _ & Hline & Hfired & Hwait & _).
  destruct (Hwait eq_refl) as (_ & _ & Htime).
  split; [exact Ht|]. split; [exact Hline|]. split; [exact Hfired|].
  exact Htime.
Defined.

(** ** WAV container *)

Lemma wavify_split (pcmData : list Z) (sampleRate : Z) :
  wavify pcmData sampleRate
  = (v <~ wav_write_header (repeat 0 (44 + List.length pcmData))
            (Z.of_nat (List.length pcmData)) sampleRate ;;
     set_bytes 44 pcmData v)%buffer.
Proof.
  unfold wavify, wav_write_header.
  repeat match goal with
         | |- context [match ?w with Some _ => _ | None => _ end] => destruct w
         end; reflexivity.
Qed.

Lemma byteRate_exact (sampleRate : Z) : sampleRate * 1 * 16 / 8 = 2 * sampleRate.
Proof.
  replace (sampleRate * 1 * 16) with (2 * sampleRate * 8) by lia.
  now rewrite Z.div_mul.
Qed.

Lemma wav_write_header_zeroed (tail : list Z) (dataSize sampleRate : Z) :
  wav_write_header (repeat 0 44 ++ tail) dataSize sampleRate
  = Some (wav_header dataSize sampleRate ++ tail).
Proof.
  cbv -[Z.modulo Z.div Z.add Z.mul].
  change (sampleRate * 1 * (2 * (2 * (2 * (2 * 1)))) / (2 * (2 * (2 * 1))))
    with (sampleRate * 1 * 16 / 8).
  rewrite byteRate_exact. reflexivity.
Qed.

Lemma write_at_nil (offset : nat) (buf : list Z) : write_at offset [] buf = buf.
Proof. now destruct buf. Qed.

Lemma write_at_head (v : Z) (vs : list Z) (b : Z) (rest : list Z) :
  write_at 0 (v :: vs) (b :: rest) = v :: write_at 0 vs rest.
Proof. destruct vs; [now rewrite write_at_nil | reflexivity]. Qed.

Lemma write_at_app (pre : list Z) :
  forall (bs tail : list Z),
    write_at (List.length pre) bs (pre ++ tail) = pre ++ write_at 0 bs tail.
Proof.
  induction pre as [|b pre IH]; intros bs tail; [reflexivity|].
  destruct bs as [|v vs]; [now rewrite !write_at_nil|].
  simpl List.length. simpl app.
  change (write_at (S (List.length pre)) (v :: vs) (b :: pre ++ tail))
    with (b :: write_at (List.length pre) (v :: vs) (pre ++ tail)).
  now rewrite IH.
Qed.

Lemma write_at_whole (bs : list Z) :
  forall buf, List.length buf = List.length bs -> write_at 0 bs buf = bs.
Proof.
  induction bs as [|b bs IH]; intros [|x buf] H; simpl in H;
    try discriminate; [reflexivity|].
  rewrite write_at_head. f_equal. apply IH. lia.
Qed.

Lemma wav_header_length (dataSize sampleRate : Z) :
  List.length (wav_header dataSize sampleRate) = 44%nat.
Proof. reflexivity. Qed.

(** The bytes [wavify] returns. *)
Lemma wavify_result (pcmData : list Z) (sampleRate : Z) :
  wavify pcmData sampleRate
  = Some (wav_header (Z.of_nat (List.length pcmData)) sampleRate ++ pcmData).
Proof.
  rewrite wavify_split, repeat_app, wav_write_header_zeroed.
  unfold set_bytes.
  rewrite length_app, wav_header_length, repeat_length, Nat.leb_refl.
  f_equal.
  change 44%nat
    with (List.length (wav_header (Z.of_nat (List.length pcmData)) sampleRate))
    at 1.
  rewrite write_at_app. f_equal.
  apply write_at_whole. apply repeat_length.
Qed.

Lemma le32_decode (v : Z) :
  0 <= v < 4294967296 ->
  v mod 256 + 256 * ((v / 256) mod 256) + 65536 * ((v / 65536) mod 256)
  + 16777216 * ((v / 16777216) mod 256) = v.
Proof.
  intros Hv.
  pose proof (Z.div_mod v 256 ltac:(lia)) as H0.
  pose proof (Z.div_mod (v / 256) 256 ltac:(lia)) as H1.
  pose proof (Z.div_mod (v / 65536) 256 ltac:(lia)) as H2.
  replace (v / 256 / 256) with (v / 65536) in H1
    by (rewrite Z.div_div by lia; reflexivity).
  replace (v / 65536 / 256) with (v / 16777216) in H2
    by (rewrite Z.div_div by lia; reflexivity).
  assert (H3 : (v / 16777216) mod 256 = v / 16777216).
  { apply Z.mod_small. split; [apply Z.div_pos; lia|].
    apply Z.div_lt_upper_bound; lia. }
  lia.
Qed.

Lemma le16_decode (v : Z) :
  0 <= v < 65536 -> v mod 256 + 256 * ((v / 256) mod 256) = v.
Proof.
  intros Hv.
  pose proof (Z.div_mod v 256 ltac:(lia)) as H0.
  assert (H1 : (v / 256) mod 256 = v / 256).
  { apply Z.mod_small. split; [apply Z.div_pos; lia|].
    apply Z.div_lt_upper_bound; lia. }
  lia.
Qed.

(** X2. Read back with the [DataView] getters, the header of the blob
    announces what the code intends as long as the sizes fit in 32
    bits: RIFF size = blob length - 8, PCM format 1, one channel, the
    sample rate, byte rate = 2 * sample rate, block align 2, 16 bits per
    sample, data size = payload length; the payload starts at byte 44. *)
Theorem wavify_header_reads_back (pcmData : list Z) (sampleRate : Z) :
  0 <= sampleRate -> 2 * sampleRate < 4294967296 ->
  Z.of_nat (List.length pcmData) + 36 < 4294967296 ->
  exists blob,
    wavify pcmData sampleRate = Some blob
    /\ List.length blob = (44 + List.length pcmData)%nat
    /\ getUint32 4 blob = Some (Z.of_nat (List.length blob) - 8)
    /\ getUint16 20 blob = Some 1
    /\ getUint16 22 blob = Some 1
    /\ getUint32 24 blob = Some sampleRate
    /\ getUint32 28 blob = Some (2 * sampleRate)
    /\ getUint16 32 blob = Some 2
    /\ getUint16 34 blob = Some 16
    /\ getUint32 40 blob = Some (Z.of_nat (List.length pcmData))
    /\ skipn 44 blob = pcmData.
Proof.
  intros Hsr Hrate Hsize.
  exists (wav_header (Z.of_nat (List.length pcmData)) sampleRate ++ pcmData).
  split; [apply wavify_result|].
  split; [now rewrite length_app, wav_header_length|].
  rewrite length_app, wav_header_length.
  replace (Z.of_nat (44 + List.length pcmData) - 8)
    with (36 + Z.of_nat (List.length pcmData)) by lia.
  assert (Hn : 0 <= Z.of_nat (List.length pcmData)) by lia.
  remember (Z.of_nat (List.length pcmData)) as n eqn:En. clear En.
  repeat split;
    cbv -[Z.modulo Z.div Z.add Z.mul]; f_equal;
    rewrite le32_decode by lia; reflexivity.
Qed.

Lemma le32_bytes (v : Z) : Forall is_byte (le32 v).
Proof.
  unfold le32, is_byte.
  repeat constructor; apply Z.mod_pos_bound; lia.
Qed.

Lemma le16_bytes (v : Z) : Forall is_byte (le16 v).
Proof.
  unfold le16, is_byte.
  repeat constructor; apply Z.mod_pos_bound; lia.
Qed.

(** Bytes in, bytes out. *)
Lemma wavify_result_bytes (pcmData : list Z) (sampleRate : Z) :
  Forall is_byte pcmData ->
  exists blob,
    wavify pcmData sampleRate = Some blob /\ Forall is_byte blob.
Proof.
  intros Hpcm.
  exists (wav_header (Z.of_nat (List.length pcmData)) sampleRate ++ pcmData).
  split; [apply wavify_result|].
  apply Forall_app. split; [|exact Hpcm].
  unfold wav_header.
  repeat (apply Forall_app; split);
    try apply le32_bytes; try apply le16_bytes;
    repeat constructor; unfold is_byte; lia.
Qed.

(** X1. [wavify] never runs out of its buffer: for every payload and
    sample rate it returns the 44 header bytes, field by field as the
    RIFF/WAVE layout prescribes with sizes and rates reduced to 32 bits,
    followed by the payload unchanged; and the result is a byte string
    whenever the payload is, even when a size or rate does not fit its
    field. *)
Theorem wavify_layout (pcmData : list Z) (sampleRate : Z) :
  exists blob,
    wavify pcmData sampleRate = Some blob
    /\ blob = wav_header (Z.of_nat (List.length pcmData)) sampleRate ++ pcmData
    /\ List.length blob = (44 + List.length pcmData)%nat
    /\ firstn 4 blob = [82; 73; 70; 70]
    /\ skipn 44 blob = pcmData
    /\ (Forall is_byte pcmData -> Forall is_byte blob).
Proof.
  exists (wav_header (Z.of_nat (List.length pcmData)) sampleRate ++ pcmData).
  split; [apply wavify_result|]. split; [reflexivity|].
  split; [now rewrite length_app, wav_header_length|].
  split; [reflexivity|]. split; [reflexivity|].
  intros Hpcm. destruct (wavify_result_bytes pcmData sampleRate Hpcm)
    as (blob & Hw & Hbytes).
  rewrite wavify_result in Hw. now injection Hw as <-.
Qed.

Lemma wavify_header_reads_back_witness :
  exists blob,
    wavify [7; 9] 24000 = Some blob
    /\ getUint32 4 blob = Some 38
    /\ getUint32 24 blob = Some 24000
    /\ getUint32 28 blob = Some 48000
    /\ skipn 44 blob = [7; 9].
Proof.
  destruct (wavify_header_reads_back [7; 9] 24000
              ltac:(lia) ltac:(lia) ltac:(simpl; lia))
    as (blob & Hw & Hlen & H4 & _ & _ & H24 & H28 & _ & _ & _ & Hdata).
  exists blob. rewrite Hlen in H4.
  split; [exact Hw|]. split; [exact H4|]. split; [exact H24|].
  split; [exact H28 | exact Hdata].
Defined.

(** ** Speech and image responses *)

Lemma map_mod_bytes (bs : list Z) : Forall is_byte (map (fun b => b mod 256) bs).
Proof.
  apply Forall_forall. intros b Hb. apply in_map_iff in Hb.
  destruct Hb as (x & <- & _). unfold is_byte. apply Z.mod_pos_bound. lia.
Qed.

(** X3. [generateTTS] ends in exactly one of three ways: it throws "No
    audio generated" when the first part of the first candidate carries
    no non-empty inline data (later parts are not looked at), it fails
    in [atob], or it returns a WAV blob announcing 24000 Hz and 48000
    bytes per second whose payload is the decoded audio; writing the
    container never fails. *)
Theorem generateTTS_outcomes (atob : string -> option (list Z))
    (response : GenerateContentResponse) :
  match generateTTS atob response with
  | NoAudio => tts_base64 response = None
  | DecodeError =>
      exists b64, tts_base64 response = Some b64 /\ atob b64 = None
  | RangeError => False
  | WavBlob blob =>
      exists b64 bytes,
        tts_base64 response = Some b64
        /\ atob b64 = Some bytes
        /\ blob = wav_header (Z.of_nat (List.length bytes)) 24000
                    ++ map (fun b => b mod 256) bytes
        /\ getUint32 24 blob = Some 24000
        /\ getUint32 28 blob = Some 48000
        /\ skipn 44 blob = map (fun b => b mod 256) bytes
        /\ Forall is_byte blob
  end.
Proof.
  unfold generateTTS.
  destruct (tts_base64 response) as [b64|] eqn:Hb; [|reflexivity].
  destruct (atob b64) as [bytes|] eqn:Ha; [|now exists b64].
  rewrite wavify_result, length_map.
  exists b64, bytes.
  split; [reflexivity|]. split; [exact Ha|]. split; [reflexivity|].
  split; [reflexivity|]. split; [reflexivity|]. split; [reflexivity|].
  destruct (wavify_result_bytes (map (fun b => b mod 256) bytes) 24000
              (map_mod_bytes bytes)) as (blob & Hw & Hbytes).
  rewrite wavify_result, length_map in Hw. now injection Hw as <-.
Qed.

Lemma existsb_eqb_In (v : string) (l : list string) :
  existsb (String.eqb v) l = true <-> In v l.
Proof.
  rewrite existsb_exists. split.
  - intros (x & Hin & Heq). apply String.eqb_eq in Heq. now subst.
  - intros Hin. exists v. split; [exact Hin | apply String.eqb_refl].
Qed.

(** X4. The voice sent to the speech model is always one of the five
    supported voices: a supported name passes through unchanged, any
    other name (and a line whose speaker is unknown or has no voice)
    becomes Kore. *)
Theorem selectedVoice_supported (voiceName : string)
    (characters : list Character) (dialogue : Dialogue) :
  In (selectedVoice voiceName) validVoices
  /\ (In voiceName validVoices -> selectedVoice voiceName = voiceName)
  /\ (~ In voiceName validVoices -> selectedVoice voiceName = "Kore"%string)
  /\ In (selectedVoice (voice_for characters dialogue)) validVoices
  /\ (find (fun c => String.eqb (c_id c) (characterId dialogue)) characters
      = None ->
      selectedVoice (voice_for characters dialogue) = "Kore"%string).
Proof.
  assert (Hin : forall v, In (selectedVoice v) validVoices).
  { intros v. unfold selectedVoice.
    destruct (existsb (String.eqb v) validVoices) eqn:He.
    - now apply existsb_eqb_In.
    - simpl. auto. }
  split; [apply Hin|]. split; [|split; [|split; [apply Hin|]]].
  - intros Hv. unfold selectedVoice.
    now rewrite (proj2 (existsb_eqb_In voiceName validVoices) Hv).
  - intros Hv. unfold selectedVoice.
    destruct (existsb (String.eqb voiceName) validVoices) eqn:He;
      [|reflexivity].
    apply existsb_eqb_In in He. contradiction.
  - intros Hnone. unfold voice_for. rewrite Hnone. reflexivity.
Qed.

Lemma first_inline_image_none (ps : list Part) :
  first_inline_image ps = None
  <-> Forall (fun part => part_inlineData part = None) ps.
Proof.
  induction ps as [|part ps IH]; simpl.
  - split; [constructor | reflexivity].
  - destruct (part_inlineData part) as [d|] eqn:Hd.
    + split; [discriminate|]. intros H. inversion H; congruence.
    + rewrite IH. split.
      * intros H. now constructor.
      * intros H. now inversion H.
Qed.

Lemma first_inline_image_some (ps : list Part) (url : string) :
  first_inline_image ps = Some url
  <-> exists before part after d,
        ps = before ++ part :: after
        /\ Forall (fun q => part_inlineData q = None) before
        /\ part_inlineData part = Some d
        /\ url = ("data:image/png;base64," ++ template (inline_data d))%string.
Proof.
  induction ps as [|p ps IH]; simpl.
  - split; [discriminate|].
    intros (before & part & after & d & H & _). now destruct before.
  - destruct (part_inlineData p) as [d|] eqn:Hd.
    + split.
      * intros H. injection H as <-. exists [], p, ps, d. now repeat split.
      * intros (before & part & after & d' & Hps & Hbefore & Hpart & ->).
        destruct before as [|b before]; simpl in Hps.
        -- injection Hps as <- <-. congruence.
        -- injection Hps as <- _. inversion Hbefore; congruence.
    + rewrite IH. split.
      * intros (before & part & after & d & -> & Hbefore & Hpart & ->).
        exists (p :: before), part, after, d. repeat split; auto.
      * intros (before & part & after & d & Hps & Hbefore & Hpart & ->).
        destruct before as [|b before]; simpl in Hps.
        -- injection Hps as -> _. congruence.
        -- injection Hps as <- ->. inversion Hbefore; subst.
           exists before, part, after, d. now repeat split.
Qed.

(** X5. The two image generators return the data URL of the first part
    of the first candidate that carries inline data, and throw their
    own "Failed to generate ..." error exactly when no part does, in
    particular when candidates, content or parts are missing. *)
Theorem image_generators_take_first_inline_part
    (response : GenerateContentResponse) :
  (generateCharacterImage response
   = inl "Failed to generate character image"%string
   <-> Forall (fun part => part_inlineData part = None)
         (response_parts response))
  /\ (generateSceneImage response
      = inl "Failed to generate scene image"%string
      <-> Forall (fun part => part_inlineData part = None)
            (response_parts response))
  /\ (forall url,
        generateCharacterImage response = inr url
        <-> generateSceneImage response = inr url)
  /\ (forall url,
        generateSceneImage response = inr url
        <-> exists before part after d,
              response_parts response = before ++ part :: after
              /\ Forall (fun q => part_inlineData q = None) before
              /\ part_inlineData part = Some d
              /\ url = ("data:image/png;base64,"
                        ++ template (inline_data d))%string)
  /\ (response_candidates response = None
      \/ response_candidates response = Some [] ->
      generateSceneImage response = inl "Failed to generate scene image"%string).
Proof.
  unfold generateCharacterImage, generateSceneImage.
  pose proof (first_inline_image_none (response_parts response)) as Hnone.
  pose proof (first_inline_image_some (response_parts response)) as Hsome.
  destruct (first_inline_image (response_parts response)) as [u|] eqn:Hf.
  - split; [split; [discriminate | intros H; apply Hnone in H; discriminate]|].
    split; [split; [discriminate | intros H; apply Hnone in H; discriminate]|].
    split; [intros url; split; auto|].
    split.
    + intros url. rewrite <- Hsome. split; congruence.
    + intros [Hc|Hc]; unfold response_parts in Hf; rewrite Hc in Hf;
        discriminate Hf.
  - split; [split; [intros _; now apply Hnone | reflexivity]|].
    split; [split; [intros _; now apply Hnone | reflexivity]|].
    split; [intros url; split; discriminate|].
    split; [|reflexivity].
    intros url. rewrite <- Hsome. split; discriminate.
Qed.

(** ** Application shell *)

Lemma map_fixed {A} (f : A -> A) (l : list A) :
  (forall x, In x l -> f x = x) -> map f l = l.
Proof.
  intros H. rewrite <- (map_id l) at 2. now apply map_ext_in.
Qed.

Lemma app_step_keeps_analysis (e : AppEvent) (app : App) :
  analysis app <> None -> analysis (app_step e app) <> None.
Proof.
  intros H. destruct app as [v [a|]]; [|contradiction].
  destruct e; simpl; try discriminate; try exact H.
  - destruct v; simpl; discriminate.
  - destruct v; simpl; discriminate.
Qed.

Lemma app_step_rendered (e : AppEvent) (app : App) :
  rendered app <> None -> rendered (app_step e app) <> None.
Proof.
  destruct app as [v [a|]]; destruct v, e; simpl; intros H;
    try discriminate; try exact H; contradiction.
Qed.

Lemma app_run_rendered (es : list AppEvent) :
  forall app, rendered app <> None -> rendered (app_run es app) <> None.
Proof.
  induction es as [|e es IH]; intros app H; [exact H|].
  apply IH. now apply app_step_rendered.
Qed.

Lemma app_run_keeps_analysis (es : list AppEvent) :
  forall app, analysis app <> None -> analysis (app_run es app) <> None.
Proof.
  induction es as [|e es IH]; intros app H; [exact H|].
  apply IH. now apply app_step_keeps_analysis.
Qed.

(** X6. [App] always has a view to render: the storyboard and the
    preview are only ever selected while an analysis is present, and an
    analysis, once delivered, is never cleared by any later event. *)
Theorem app_view_has_its_analysis (es : list AppEvent) :
  (exists v, rendered (app_run es app_init) = Some v)
  /\ (view (app_run es app_init) = ViewScript
      \/ exists a, analysis (app_run es app_init) = Some a)
  /\ forall app a,
       analysis app = Some a ->
       exists a', analysis (app_run es app) = Some a'.
Proof.
  pose proof (app_run_rendered es) as Hrend.
  pose proof (app_run_keeps_analysis es) as Hkeep.
  specialize (Hrend app_init ltac:(discriminate)).
  split; [|split].
  - destruct (rendered (app_run es app_init)) as [v|]; [now exists v|].
    contradiction.
  - unfold rendered in Hrend.
    destruct (view (app_run es app_init)); [now left | |];
      (destruct (analysis (app_run es app_init)) as [a|];
       [right; now exists a | contradiction]).
  - intros app a Ha. specialize (Hkeep app ltac:(congruence)).
    destruct (analysis (app_run es app)) as [a'|]; [now exists a'|].
    contradiction.
Qed.

(** X7. An update addressed to an id that nothing carries changes
    nothing: an unknown scene id for [updateScene] and [updateDialogue],
    an unknown dialogue id inside the addressed scenes, an unknown
    character id; and before any analysis exists every update is
    dropped. *)
Theorem update_of_unknown_id_changes_nothing (app : App)
    (sceneId dialogueId charId : string)
    (su : SceneUpdate) (du : DialogueUpdate) (cu : CharacterUpdate) :
  (Forall (fun s => s_id s <> sceneId) (app_scenes app) ->
   updateScene sceneId su app = app
   /\ updateDialogue sceneId dialogueId du app = app)
  /\ (Forall (fun s => Forall (fun d => d_id d <> dialogueId) (dialogues s))
        (app_scenes app) ->
      updateDialogue sceneId dialogueId du app = app)
  /\ (Forall (fun c => c_id c <> charId) (app_characters app) ->
      updateCharacter charId cu app = app)
  /\ (analysis app = None ->
      updateScene sceneId su app = app
      /\ updateDialogue sceneId dialogueId du app = app
      /\ updateCharacter charId cu app = app).
Proof.
  destruct app as [v [[t cs ss]|]]; simpl;
    [|repeat split; reflexivity].
  unfold updateScene, updateDialogue, updateCharacter. simpl.
  split; [|split; [|split; [|discriminate]]].
  - intros H. rewrite Forall_forall in H.
    split; do 3 f_equal; apply map_fixed; intros s Hs;
      specialize (H s Hs); apply String.eqb_neq in H; now rewrite H.
  - intros H. rewrite Forall_forall in H.
    do 3 f_equal. apply map_fixed. intros s Hs.
    destruct (negb (String.eqb (s_id s) sceneId)); [reflexivity|].
    specialize (H s Hs). rewrite Forall_forall in H.
    rewrite map_fixed; [now destruct s|].
    intros d Hd. specialize (H d Hd). apply String.eqb_neq in H.
    now rewrite H.
  - intros H. rewrite Forall_forall in H.
    do 2 f_equal. f_equal. apply map_fixed. intros c Hc.
    specialize (H c Hc). apply String.eqb_neq in H. now rewrite H.
Qed.

Lemma array_order_lines_map (f : Scene -> Scene) (ss : list Scene) :
  (forall s, List.length (dialogues (f s)) = List.length (dialogues s)) ->
  forall i, array_order_lines i (map f ss) = array_order_lines i ss.
Proof.
  intros Hf. induction ss as [|s ss IH]; intros i; simpl; [reflexivity|].
  now rewrite Hf, IH.
Qed.

Lemma run_length_map (f : Scene -> Scene) (ss : list Scene) :
  (forall s, List.length (dialogues (f s)) = List.length (dialogues s)) ->
  run_length (map f ss) = run_length ss.
Proof.
  intros Hf. induction ss as [|s ss IH]; simpl; [reflexivity|].
  now rewrite Hf, IH.
Qed.

Lemma updateDialogue_lines (sceneId dialogueId : string) (du : DialogueUpdate)
    (app : App) :
  array_order_lines 0 (app_scenes (updateDialogue sceneId dialogueId du app))
  = array_order_lines 0 (app_scenes app)
  /\ run_length (app_scenes (updateDialogue sceneId dialogueId du app))
     = run_length (app_scenes app).
Proof.
  destruct app as [v [[t cs ss]|]]; simpl; [|now split].
  split; [apply array_order_lines_map | apply run_length_map];
    intros s; destruct (negb (String.eqb (s_id s) sceneId)); simpl;
    try reflexivity; apply length_map.
Qed.

Lemma updateScene_lines (sceneId : string) (su : SceneUpdate) (app : App) :
  su_dialogues su = None ->
  array_order_lines 0 (app_scenes (updateScene sceneId su app))
  = array_order_lines 0 (app_scenes app)
  /\ run_length (app_scenes (updateScene sceneId su app))
     = run_length (app_scenes app).
Proof.
  intros Hsu. destruct app as [v [[t cs ss]|]]; simpl; [|now split].
  split; [apply array_order_lines_map | apply run_length_map];
    intros s; destruct (String.eqb (s_id s) sceneId); simpl;
    try reflexivity; now rewrite Hsu.
Qed.

(** X8. Editing and asset generation never change what the player will
    visit: after an update of a dialogue or a character, after an update
    of a scene that does not replace its dialogue list, and after any
    settled image or audio request, the lines in playback order and the
    length of a full run are what they were. *)
Theorem asset_updates_keep_playback_order (app : App) :
  let lines a := (array_order_lines 0 (app_scenes a), run_length (app_scenes a)) in
  (forall sceneId dialogueId du,
      lines (updateDialogue sceneId dialogueId du app) = lines app)
  /\ (forall charId cu,
        app_scenes (updateCharacter charId cu app) = app_scenes app)
  /\ (forall sceneId su,
        su_dialogues su = None ->
        lines (updateScene sceneId su app) = lines app)
  /\ (forall scene outcome,
        lines (fst (handleGenerateSceneImage_click scene app)) = lines app
        /\ lines (fst (handleGenerateSceneImage_settle scene outcome app))
           = lines app)
  /\ (forall characters sceneId dialogue outcome,
        lines (fst (handleGenerateAudio_click characters sceneId dialogue app))
        = lines app
        /\ lines (fst (handleGenerateAudio_settle sceneId dialogue outcome app))
           = lines app).
Proof.
  intros lines.
  assert (Hd : forall sceneId dialogueId du,
             lines (updateDialogue sceneId dialogueId du app) = lines app).
  { intros. unfold lines.
    destruct (updateDialogue_lines sceneId dialogueId du app) as [-> ->].
    reflexivity. }
  assert (Hs : forall sceneId su, su_dialogues su = None ->
                                  lines (updateScene sceneId su app) = lines app).
  { intros sceneId su Hsu. unfold lines.
    destruct (updateScene_lines sceneId su app Hsu) as [-> ->]. reflexivity. }
  split; [exact Hd|]. split; [|split; [exact Hs|split]].
  - intros charId cu. now destruct app as [v [[t cs ss]|]].
  - intros scene outcome. split.
    + unfold handleGenerateSceneImage_click.
      destruct (isGeneratingImage scene); simpl; [reflexivity | now apply Hs].
    + destruct outcome as [m|url]; simpl; now apply Hs.
  - intros characters sceneId dialogue outcome. split.
    + unfold handleGenerateAudio_click.
      destruct (isGeneratingAudio dialogue); simpl; [reflexivity | apply Hd].
    + destruct outcome as [m|url]; simpl; apply Hd.
Qed.

Lemma spread_twice {A} (old : A) (x y : option A) :
  spread (spread old x) y = spread old (spread x (option_map Some y)).
Proof. now destruct x, y. Qed.

(** X9. Two updates of the same scene compose into one: as long as the
    first does not rename the scene, applying [u1] and then [u2] equals
    applying their merge, in which every key of [u2] overrides the same
    key of [u1]. *)
Theorem updateScene_twice (sceneId : string) (u1 u2 : SceneUpdate) (app : App) :
  su_id u1 = None ->
  updateScene sceneId u2 (updateScene sceneId u1 app)
  = updateScene sceneId (then_scene_update u1 u2) app.
Proof.
  intros Hid. destruct app as [v [[t cs ss]|]]; [|reflexivity].
  unfold updateScene. simpl. do 3 f_equal.
  rewrite map_map. apply map_ext. intros s.
  destruct (String.eqb (s_id s) sceneId) eqn:He.
  - assert (Hsame : s_id (spread_scene s u1) = s_id s)
      by (simpl; now rewrite Hid).
    rewrite Hsame, He.
    unfold spread_scene, then_scene_update. simpl.
    now rewrite !spread_twice.
  - now rewrite He.
Qed.

Lemma updateScene_twice_witness :
  su_id (su_generating true) = None
  /\ updateScene "s" (su_image "u")
       (updateScene "s" (su_generating true)
          (mkApp ViewStoryboard (Some (mkScriptAnalysis "t" [] two_scenes))))
     = updateScene "s" (su_image "u")
         (mkApp ViewStoryboard (Some (mkScriptAnalysis "t" [] two_scenes))).
Proof.
  split; [reflexivity|].
  exact (updateScene_twice "s" (su_generating true) (su_image "u")
           (mkApp ViewStoryboard (Some (mkScriptAnalysis "t" [] two_scenes)))
           eq_refl).
Defined.

(** ** Storyboard handlers *)

Lemma updateScene_scenes (sceneId : string) (su : SceneUpdate) (app : App) :
  app_scenes (updateScene sceneId su app)
  = map (fun s => if String.eqb (s_id s) sceneId then spread_scene s su else s)
        (app_scenes app).
Proof. now destruct app as [v [[t cs ss]|]]. Qed.

Lemma updateDialogue_scenes (sceneId dialogueId : string)
    (du : DialogueUpdate) (app : App) :
  app_scenes (updateDialogue sceneId dialogueId du app)
  = map (fun s =>
           if negb (String.eqb (s_id s) sceneId) then s
           else mkScene (s_id s) (order s) (description s) (imagePrompt s)
                  (imageUrl s)
                  (map (fun d => if String.eqb (d_id d) dialogueId
                                 then spread_dialogue d du else d)
                       (dialogues s))
                  (isGeneratingImage s) (duration s))
        (app_scenes app).
Proof. now destruct app as [v [[t cs ss]|]]. Qed.

(** X10. Scene image generation: while the scene of the clicked render
    is marked as generating, the click does nothing; otherwise it marks
    every scene with that id and sends the scene's prompt. When the
    request settles the mark is cleared on every scene with that id,
    whatever the outcome; a failure leaves every image as it was and
    reports the error message (or a default for an empty one), a success
    installs the URL on the scenes with that id and on no other. *)
Theorem scene_image_generation_lifecycle (scene : Scene) (app : App) :
  (isGeneratingImage scene = true ->
   handleGenerateSceneImage_click scene app = (app, None))
  /\ (isGeneratingImage scene = false ->
      snd (handleGenerateSceneImage_click scene app) = Some (imagePrompt scene)
      /\ Forall (fun s => s_id s = s_id scene -> isGeneratingImage s = true)
           (app_scenes (fst (handleGenerateSceneImage_click scene app))))
  /\ (forall outcome,
        Forall (fun s => s_id s = s_id scene -> isGeneratingImage s = false)
          (app_scenes (fst (handleGenerateSceneImage_settle scene outcome app)))
        /\ map s_id
             (app_scenes (fst (handleGenerateSceneImage_settle scene outcome app)))
           = map s_id (app_scenes app))
  /\ (forall message,
        map imageUrl
          (app_scenes
             (fst (handleGenerateSceneImage_settle scene (inl message) app)))
        = map imageUrl (app_scenes app)
        /\ exists shown,
             snd (handleGenerateSceneImage_settle scene (inl message) app)
             = Some shown /\ shown <> EmptyString)
  /\ (forall url,
        map imageUrl
          (app_scenes (fst (handleGenerateSceneImage_settle scene (inr url) app)))
        = map (fun s => if String.eqb (s_id s) (s_id scene)
                        then Some url else imageUrl s)
              (app_scenes app)).
Proof.
  split; [|split; [|split; [|split]]].
  - intros Hgen. unfold handleGenerateSceneImage_click. now rewrite Hgen.
  - intros Hgen. unfold handleGenerateSceneImage_click. rewrite Hgen. simpl.
    split; [reflexivity|]. rewrite updateScene_scenes.
    apply Forall_forall. intros s Hs. apply in_map_iff in Hs.
    destruct Hs as (s0 & <- & _).
    destruct (String.eqb (s_id s0) (s_id scene)) eqn:He; simpl; auto.
    intros Hid. apply String.eqb_neq in He. contradiction.
  - intros outcome.
    assert (Hshape : exists su,
               fst (handleGenerateSceneImage_settle scene outcome app)
               = updateScene (s_id scene) su app
               /\ su_id su = None /\ su_isGeneratingImage su = Some false).
    { destruct outcome as [m|url]; simpl;
        [exists (su_generating false) | exists (su_image url)]; auto. }
    destruct Hshape as (su & -> & Hid & Hflag).
    rewrite updateScene_scenes. split.
    + apply Forall_forall. intros s Hs. apply in_map_iff in Hs.
      destruct Hs as (s0 & <- & _).
      destruct (String.eqb (s_id s0) (s_id scene)) eqn:He; simpl.
      * now rewrite Hflag.
      * intros Heq. apply String.eqb_neq in He. contradiction.
    + rewrite map_map. apply map_ext. intros s.
      destruct (String.eqb (s_id s) (s_id scene)); simpl; [|reflexivity].
      now rewrite Hid.
  - intros message. simpl. split.
    + rewrite updateScene_scenes, map_map. apply map_ext. intros s.
      now destruct (String.eqb (s_id s) (s_id scene)).
    + destruct message as [|c m]; eexists; split; try reflexivity;
        discriminate.
  - intros url. simpl. rewrite updateScene_scenes, map_map.
    apply map_ext. intros s.
    now destruct (String.eqb (s_id s) (s_id scene)).
Qed.

(** X11. Voice generation: while the line of the clicked render is
    marked as generating, the click does nothing; otherwise it sends the
    line's text with the speaker's voice (Kore without one). When the
    request settles the mark is cleared on every line with that id in
    the scenes with that scene id, whatever the outcome; a failure
    leaves every clip as it was, a success installs the URL on exactly
    those lines; texts are never touched. *)
Theorem voice_generation_lifecycle (characters : list Character)
    (sceneId : string) (dialogue : Dialogue) (app : App) :
  let addressed (s : Scene) (d : Dialogue) :=
    String.eqb (s_id s) sceneId && String.eqb (d_id d) (d_id dialogue) in
  (isGeneratingAudio dialogue = true ->
   handleGenerateAudio_click characters sceneId dialogue app = (app, None))
  /\ (isGeneratingAudio dialogue = false ->
      snd (handleGenerateAudio_click characters sceneId dialogue app)
      = Some (text dialogue, voice_for characters dialogue))
  /\ (forall outcome,
        map (fun s => map (fun d => (d_id d, text d)) (dialogues s))
          (app_scenes (fst (handleGenerateAudio_settle sceneId dialogue
                              outcome app)))
        = map (fun s => map (fun d => (d_id d, text d)) (dialogues s))
            (app_scenes app)
        /\ map (fun s => map (fun d => isGeneratingAudio d) (dialogues s))
             (app_scenes (fst (handleGenerateAudio_settle sceneId dialogue
                                 outcome app)))
           = map (fun s => map (fun d => if addressed s d then false
                                         else isGeneratingAudio d)
                             (dialogues s))
               (app_scenes app))
  /\ (forall message,
        map (fun s => map audioUrl (dialogues s))
          (app_scenes (fst (handleGenerateAudio_settle sceneId dialogue
                              (inl message) app)))
        = map (fun s => map audioUrl (dialogues s)) (app_scenes app))
  /\ (forall url,
        map (fun s => map audioUrl (dialogues s))
          (app_scenes (fst (handleGenerateAudio_settle sceneId dialogue
                              (inr url) app)))
        = map (fun s => map (fun d => if addressed s d then Some url
                                      else audioUrl d)
                          (dialogues s))
            (app_scenes app)).
Proof.
  intros addressed. subst addressed.
  assert (Hmap : forall (B : Type) (g : Dialogue -> B) (h : Dialogue -> B)
                        (du : DialogueUpdate),
             (forall d, String.eqb (d_id d) (d_id dialogue) = true ->
                        g (spread_dialogue d du) = h d) ->
             map (fun s => map g (dialogues s))
               (app_scenes (updateDialogue sceneId (d_id dialogue) du app))
             = map (fun s => map (fun d =>
                                    if String.eqb (s_id s) sceneId
                                       && String.eqb (d_id d) (d_id dialogue)
                                    then h d else g d)
                                 (dialogues s))
                 (app_scenes app)).
  { intros B g h du Hg. rewrite updateDialogue_scenes, map_map.
    apply map_ext. intros s.
    destruct (String.eqb (s_id s) sceneId) eqn:He; simpl.
    - rewrite map_map. apply map_ext. intros d.
      destruct (String.eqb (d_id d) (d_id dialogue)) eqn:Hd; [|reflexivity].
      now apply Hg.
    - reflexivity. }
  split; [|split; [|split; [|split]]].
  - intros Hgen. unfold handleGenerateAudio_click. now rewrite Hgen.
  - intros Hgen. unfold handleGenerateAudio_click. now rewrite Hgen.
  - intros outcome.
    assert (Hshape : exists du,
               fst (handleGenerateAudio_settle sceneId dialogue outcome app)
               = updateDialogue sceneId (d_id dialogue) du app
               /\ du_id du = None /\ du_text du = None
               /\ du_isGeneratingAudio du = Some false).
    { destruct outcome as [m|url]; simpl;
        [exists (du_generating false) | exists (du_audio url)]; auto. }
    destruct Hshape as (du & -> & Hid & Htext & Hflag). split.
    + rewrite (Hmap _ (fun d => (d_id d, text d))
                 (fun d => (d_id d, text d)) du).
      * apply map_ext. intros s. apply map_ext. intros d.
        now destruct (_ && _).
      * intros d _. simpl. now rewrite Hid, Htext.
    + apply (Hmap _ isGeneratingAudio (fun _ => false) du).
      intros d _. simpl. now rewrite Hflag.
  - intros message. simpl.
    rewrite (Hmap _ audioUrl (fun d => audioUrl d) (du_generating false)).
    + apply map_ext. intros s. apply map_ext. intros d. now destruct (_ && _).
    + reflexivity.
  - intros url. simpl.
    apply (Hmap _ audioUrl (fun _ => Some url) (du_audio url)).
    reflexivity.
Qed.

(** ** Invariants of the player *)

Lemma Forall_remove_nth {A} (P : A -> Prop) (l : list A) :
  forall n, Forall P l -> Forall P (remove_nth n l).
Proof.
  induction l as [|x l IH]; intros n H; [destruct n; constructor|].
  inversion H; subst. destruct n; simpl; [assumption|].
  constructor; auto.
Qed.

Section PlayerInvariants.
Variable scenes : list Scene.
Variable characters : list Character.
Variable host : Host.

(** [startRecording] leaves the event loop of the page alone. *)
Lemma startRecording_keeps_page (p : Player) :
  let q := fst (startRecording host p) in
  timers q = timers p
  /\ playPromises q = playPromises p
  /\ animationFrameRef q = animationFrameRef p
  /\ audioPlaying q = audioPlaying p
  /\ stopEventPending q = stopEventPending p
  /\ downloads q = downloads p.
Proof.
  pose proof (@startRecording_stable host
                (fun q => timers q = timers p
                          /\ playPromises q = playPromises p
                          /\ animationFrameRef q = animationFrameRef p
                          /\ audioPlaying q = audioPlaying p
                          /\ stopEventPending q = stopEventPending p
                          /\ downloads q = downloads p)) as H.
  specialize (H (fun _ _ E => E) (fun _ _ E => E) (fun _ _ E => E)
                (fun _ _ E => E) (fun _ _ E => E) (fun _ _ E => E) p).
  simpl. destruct (startRecording host p) as [q [e|u]]; apply H; now repeat split.
Qed.

Lemma run_timer_page (cb : TimerCallback) (q : Player) :
  timers (run_timer scenes cb q) = timers q
  /\ playPromises (run_timer scenes cb q) = playPromises q
  /\ animationFrameRef (run_timer scenes cb q) = animationFrameRef q.
Proof.
  destruct cb as [r|r]; simpl.
  - unfold sceneFinished, stopRecording.
    destruct (before_last_scene scenes r); simpl; [now repeat split|].
    destruct (mediaRecorderRef q) as [[|]|]; now repeat split.
  - unfold handleDialogueEnd. destruct (negb (isPlaying r)); now repeat split.
Qed.

Lemma closures_dispatch (e : Event) (p : Player) :
  closures_playing p -> closures_playing (fst (dispatch scenes host e p)).
Proof.
  intros [Ht Hp]. unfold dispatch.
  destruct (disabled e (cursor p)); [now split|].
  destruct e; simpl fst; try (now split).
  - unfold onClick_next. destruct (before_last_scene scenes (cursor p)); now split.
  - destruct (startRecording_keeps_page p) as (H1 & H2 & _).
    destruct (startRecording host p) as [q [ex|u]]; simpl in *;
      unfold closures_playing; now rewrite H1, H2.
  - destruct (nth_error (timers p) n) as [[delay cb]|]; simpl; [|now split].
    destruct (run_timer_page cb (set_timers (remove_nth n (timers p)) p))
      as (H1 & H2 & _).
    unfold closures_playing. rewrite H1, H2. simpl.
    split; [now apply Forall_remove_nth | exact Hp].
  - destruct (audioPlaying p); simpl; [|now split].
    unfold handleDialogueEnd. destruct (negb _); now split.
  - destruct (nth_error (playPromises p) n) as [r|]; simpl; [|now split].
    assert (Hrem : Forall (fun r0 => isPlaying r0 = true)
                     (remove_nth n (playPromises p)))
      by now apply Forall_remove_nth.
    destruct ok; simpl; [now split|].
    unfold handleDialogueEnd. destruct (negb _); now split.
  - destruct (animationFrameRef p) as [r|]; simpl; [|now split].
    unfold render. destruct (isPlaying r); now split.
  - destruct (mediaRecorderRef p); simpl; [|now split].
    unfold ondataavailable. destruct (0 <? size); now split.
  - destruct (stopEventPending p); now split.
Qed.

Lemma closures_commit (old : Cursor) (p : Player) :
  closures_playing p -> closures_playing (commit scenes host old p).
Proof.
  intros [Ht Hp]. unfold commit.
  destruct (deps_changed old (cursor p)); [|now split].
  destruct (render_effect_page scenes p) as [Ht' _].
  assert (Hp' : playPromises (render_effect scenes p) = playPromises p).
  { unfold render_effect. destruct (currentScene scenes (cursor p)); [|reflexivity].
    destruct (truthy _); [|reflexivity]. now destruct (isPlaying _). }
  pose proof (cursor_render_effect scenes p) as Hc.
  set (q := render_effect scenes p) in *.
  assert (Hq : closures_playing q) by (split; congruence).
  destruct Hq as [Htq Hpq].
  unfold sequencing_effect.
  destruct (isPlaying (cursor q)) eqn:Hplay;
    [|destruct (audio_mounted host); now split].
  unfold playNextDialogue.
  destruct (currentScene scenes (cursor q)) as [sc|]; [|now split].
  destruct (_ <=? _)%nat.
  - split; [|exact Hpq]. simpl. apply Forall_app. split; [exact Htq|].
    now repeat constructor.
  - destruct (nth_error _ _) as [d|]; [|now split].
    destruct (_ && _).
    + split; [exact Htq|]. simpl. apply Forall_app. split; [exact Hpq|].
      now repeat constructor.
    + split; [|exact Hpq]. simpl. apply Forall_app. split; [exact Htq|].
      now repeat constructor.
Qed.

Lemma closures_run (es : list Event) :
  forall p, closures_playing p -> closures_playing (run scenes host es p).
Proof.
  induction es as [|e es IH]; intros p H; [exact H|].
  apply IH. unfold step. now apply closures_commit, closures_dispatch.
Qed.

(** X12. Whatever happens to the mounted player, every pending timer
    and every pending [play()] promise holds a callback created while
    [isPlaying] was true; so the [isPlaying] test of [handleDialogueEnd]
    never stops a call made by a timer, which always advances the
    dialogue index. *)
Theorem pending_callbacks_were_created_playing (es : list Event) :
  closures_playing (run scenes host es mount)
  /\ forall n delay r q,
       nth_error (timers (run scenes host es mount)) n
       = Some (delay, DialogueEnd r) ->
       handleDialogueEnd r q
       = setCurrentDialogueIndex (fun prev => (prev + 1)%nat) q.
Proof.
  assert (H : closures_playing (run scenes host es mount))
    by (apply closures_run; split; constructor).
  split; [exact H|].
  intros n delay r q Hn. destruct H as [Ht _].
  rewrite Forall_forall in Ht. apply nth_error_In in Hn.
  specialize (Ht _ Hn). cbv beta in Ht. unfold timer_render in Ht.
  simpl in Ht. unfold handleDialogueEnd. now rewrite Ht.
Qed.

Lemma animationFrameRef_dispatch (e : Event) (p : Player) :
  animationFrameRef (fst (dispatch scenes host e p))
  = match e, animationFrameRef p with
    | AnimationFrame _, Some r => if isPlaying r then Some r else None
    | _, pending => pending
    end.
Proof.
  unfold dispatch.
  destruct (disabled e (cursor p)) eqn:Hd.
  - destruct e; try discriminate Hd; reflexivity.
  - destruct e; simpl fst; try reflexivity.
    + unfold onClick_next. now destruct (before_last_scene _ _).
    + destruct (startRecording_keeps_page p) as (_ & _ & H & _).
      destruct (startRecording host p) as [q [ex|u]]; exact H.
    + destruct (nth_error (timers p) n) as [[delay cb]|]; simpl; [|reflexivity].
      now destruct (run_timer_page cb (set_timers (remove_nth n (timers p)) p))
        as (_ & _ & ->).
    + destruct (audioPlaying p); simpl; [|reflexivity].
      unfold handleDialogueEnd. now destruct (negb _).
    + destruct (nth_error (playPromises p) n); simpl; [|reflexivity].
      destruct ok; simpl; [reflexivity|].
      unfold handleDialogueEnd. now destruct (negb _).
    + destruct (animationFrameRef p) as [r|] eqn:Hraf; simpl;
        [|now rewrite Hraf].
      unfold render. now destruct (isPlaying r).
    + destruct (mediaRecorderRef p); simpl; [|reflexivity].
      unfold ondataavailable. now destruct (0 <? size).
    + now destruct (stopEventPending p).
Qed.

Lemma animationFrameRef_effects (p : Player) :
  animationFrameRef (sequencing_effect scenes host (render_effect scenes p))
  = match currentScene scenes (cursor p) with
    | Some sc =>
        if truthy (imageUrl sc) && isPlaying (cursor p)
        then Some (cursor p) else None
    | None => None
    end.
Proof.
  assert (Hseq : forall q, animationFrameRef (sequencing_effect scenes host q)
                           = animationFrameRef q).
  { intros q. unfold sequencing_effect, playNextDialogue.
    repeat match goal with
           | |- context [match ?d with _ => _ end] => destruct d; simpl
           end; reflexivity. }
  rewrite Hseq. unfold render_effect.
  destruct (currentScene scenes (cursor p)) as [sc|]; [|reflexivity].
  destruct (truthy (imageUrl sc)); [|reflexivity].
  now destruct (isPlaying (cursor p)).
Qed.

Lemma deps_unchanged (old new : Cursor) :
  deps_changed old new = false ->
  currentSceneIndex old = currentSceneIndex new
  /\ currentDialogueIndex old = currentDialogueIndex new
  /\ isPlaying old = isPlaying new.
Proof.
  unfold deps_changed. intros H. apply negb_false_iff in H.
  apply andb_true_iff in H as [H Hp]. apply andb_true_iff in H as [Hs Hd].
  apply Nat.eqb_eq in Hs, Hd. apply Bool.eqb_prop in Hp. auto.
Qed.

Lemma frame_current_step (e : Event) (p : Player) :
  frame_current scenes p -> frame_current scenes (step scenes host e p).
Proof.
  intros Hp. unfold step, commit.
  destruct (deps_changed (cursor p) (cursor (fst (dispatch scenes host e p))))
    eqn:Hdeps.
  - unfold frame_current.
    rewrite animationFrameRef_effects, cursor_sequencing_effect,
      cursor_render_effect.
    set (c := cursor (fst (dispatch scenes host e p))).
    destruct (currentScene scenes c) as [sc|] eqn:Hsc; [|exact I].
    destruct (truthy (imageUrl sc)) eqn:Himg; [|exact I].
    destruct (isPlaying c) eqn:Hplay; [|exact I].
    simpl. repeat split; auto. now exists sc.
  - apply deps_unchanged in Hdeps. destruct Hdeps as (Hs & Hd & Hpl).
    unfold frame_current in *. rewrite animationFrameRef_dispatch.
    assert (Hkeep : match animationFrameRef p with
                    | Some r =>
                        isPlaying r = true
                        /\ isPlaying (cursor (fst (dispatch scenes host e p))) = true
                        /\ currentSceneIndex r
                           = currentSceneIndex (cursor (fst (dispatch scenes host e p)))
                        /\ currentDialogueIndex r
                           = currentDialogueIndex
                               (cursor (fst (dispatch scenes host e p)))
                        /\ exists sc, currentScene scenes r = Some sc
                                      /\ truthy (imageUrl sc) = true
                    | None => True
                    end).
    { destruct (animationFrameRef p) as [r|]; [|exact I].
      destruct Hp as (H1 & H2 & H3 & H4 & H5).
      repeat split; auto; congruence. }
    destruct e; try exact Hkeep.
    destruct (animationFrameRef p) as [r|]; [|exact I].
    destruct Hkeep as [Hr Hrest]. rewrite Hr. now split.
Qed.

Lemma frame_current_run (es : list Event) :
  forall p, frame_current scenes p -> frame_current scenes (run scenes host es p).
Proof.
  induction es as [|e es IH]; intros p H; [exact H|].
  apply IH. now apply frame_current_step.
Qed.

(** X13. The draw loop runs only while playing: whatever happens to the
    mounted player, a pending animation frame implies [isPlaying] and a
    current scene with an image, so a paused player has no frame
    pending and a frame event changes nothing; and the frame that is
    drawn shows the current line, never a stale one. *)
Theorem draw_loop_follows_playback (es : list Event) :
  let p := run scenes host es mount in
  frame_current scenes p
  /\ (isPlaying (cursor p) = false ->
      animationFrameRef p = None
      /\ forall timestamp, step scenes host (AnimationFrame timestamp) p = p)
  /\ forall r timestamp,
       animationFrameRef p = Some r ->
       frame_of scenes characters host timestamp r p
       = frame_of scenes characters host timestamp (cursor p) p.
Proof.
  intros p.
  assert (H : frame_current scenes p)
    by (apply frame_current_run; exact I).
  split; [exact H|]. unfold frame_current in H. split.
  - intros Hpaused.
    assert (Hnone : animationFrameRef p = None).
    { destruct (animationFrameRef p) as [r|]; [|reflexivity].
      destruct H as (_ & H & _). congruence. }
    split; [exact Hnone|].
    intros timestamp. unfold step, dispatch. simpl disabled. cbv iota.
    rewrite Hnone. simpl fst. apply commit_same.
  - intros r timestamp Hr. rewrite Hr in H.
    destruct H as (H1 & H2 & H3 & H4 & _).
    unfold frame_of, activeChar, currentDialogueObj, currentScene.
    now rewrite H1, H2, H3, H4.
Qed.

End PlayerInvariants.

(** ** A recording session *)

(** On a capable page [startRecording] goes through, unless an earlier
    attempt left a context without its destination node. *)
Lemma startRecording_succeeds (host : Host) (p : Player) :
  host_capable host ->
  audioContextRef p = None \/ destinationRef p = true ->
  exists q,
    startRecording host p = (q, inr tt)
    /\ cursor q = mkCursor 0 0 true true
    /\ mediaRecorderRef q = Some Recording
    /\ recordedChunksRef q = []
    /\ destinationRef q = true
    /\ audioContextRef q = Some Running.
Proof.
  intros (Hcanvas & Haudio & H1 & H2 & H3 & H4 & H5 & H6 & H7) Hgraph.
  unfold startRecording, setupAudioContext, bind, update, read, host_call, ret.
  rewrite Hcanvas, Haudio, H1, H2, H3, H4, H5, H6, H7. simpl.
  destruct (audioContextRef p) as [[|]|] eqn:Hctx; simpl.
  - destruct Hgraph as [Hg|Hg]; [discriminate|]. rewrite Hg. simpl.
    rewrite Hctx. eexists. split; [reflexivity|]. simpl. now repeat split.
  - destruct Hgraph as [Hg|Hg]; [discriminate|]. rewrite Hg. simpl.
    rewrite Hctx. eexists. split; [reflexivity|]. simpl.
    rewrite Hctx, Hg. now repeat split.
  - destruct (AudioContext_initial host); simpl;
      eexists; (split; [reflexivity|]); now repeat split.
Qed.

(** X14. On a page where no capture API throws, [startRecording] always
    goes through from a state whose audio graph is absent or complete:
    it rewinds to (0,0), raises [isRecording] and [isPlaying], leaves a
    recorder in state recording with an empty chunk list and a running
    audio context, and touches nothing the page has pending. *)
Theorem startRecording_starts_session (host : Host) (p : Player) :
  host_capable host ->
  audioContextRef p = None \/ destinationRef p = true ->
  exists q,
    startRecording host p = (q, inr tt)
    /\ cursor q = mkCursor 0 0 true true
    /\ mediaRecorderRef q = Some Recording
    /\ recordedChunksRef q = []
    /\ destinationRef q = true
    /\ audioContextRef q = Some Running
    /\ timers q = timers p
    /\ playPromises q = playPromises p
    /\ downloads q = downloads p
    /\ startTimeRef q = startTimeRef p.
Proof.
  intros Hhost Hgraph.
  destruct (startRecording_succeeds host p Hhost Hgraph)
    as (q & Hrun & Hc & Hrec & Hchunks & Hdest & Hctx).
  exists q.
  destruct (startRecording_keeps_page host p) as (Ht & Hp & _ & _ & _ & Hd).
  pose proof (startTimeRef_startRecording host p) as Hs.
  rewrite Hrun in Ht, Hp, Hd, Hs. simpl in Ht, Hp, Hd, Hs.
  repeat split; assumption.
Qed.

Lemma startRecording_starts_session_witness :
  host_capable capable_host
  /\ exists q,
       startRecording capable_host mount = (q, inr tt)
       /\ cursor q = mkCursor 0 0 true true
       /\ mediaRecorderRef q = Some Recording.
Proof.
  assert (Hhost : host_capable capable_host) by (now repeat split).
  split; [exact Hhost|].
  destruct (startRecording_starts_session capable_host mount Hhost
              (or_introl eq_refl)) as (q & Hrun & Hc & Hrec & _).
  exists q. now repeat split.
Defined.

Section SessionFacts.
Variable scenes : list Scene.
Variable host : Host.

Lemma commit_recorder (old : Cursor) (p : Player) :
  mediaRecorderRef (commit scenes host old p) = mediaRecorderRef p
  /\ stopEventPending (commit scenes host old p) = stopEventPending p
  /\ downloads (commit scenes host old p) = downloads p
  /\ recordedChunksRef (commit scenes host old p) = recordedChunksRef p.
Proof.
  unfold commit, sequencing_effect, render_effect, playNextDialogue.
  repeat match goal with
         | |- context [match ?d with _ => _ end] => destruct d; simpl
         end; now repeat split.
Qed.

Lemma session_open_commit (old : Cursor) (p : Player) :
  session_open p -> session_open (commit scenes host old p).
Proof.
  unfold session_open.
  destruct (commit_recorder old p) as (-> & -> & -> & ->).
  now rewrite cursor_commit.
Qed.

Lemma session_open_step (e : Event) (p : Player) :
  (exists n, e = TimerFires n) \/ e = AudioEnded ->
  session_open p -> session_open (step scenes host e p).
Proof.
  intros He Hp. unfold step. apply session_open_commit.
  destruct Hp as (Hrec & Hdl & Hch & Hstate).
  unfold dispatch.
  destruct He as [[n ->]| ->]; simpl disabled; cbv iota.
  - destruct (nth_error (timers p) n) as [[delay [r|r]]|]; simpl fst;
      [| |now repeat split].
    + unfold run_timer, sceneFinished.
      destruct (before_last_scene scenes r).
      * unfold session_open. simpl. repeat split; auto.
      * unfold stopRecording, session_open. simpl.
        destruct Hstate as [(Hplay & Hmr & Hstop)|(Hplay & Hmr & Hstop)];
          rewrite Hmr; simpl; repeat split; auto.
    + unfold run_timer, handleDialogueEnd.
      destruct (negb (isPlaying r)); unfold session_open; simpl;
        repeat split; auto.
  - destruct (audioPlaying p); simpl fst; [|now repeat split].
    unfold handleDialogueEnd.
    destruct (negb (isPlaying (cursor p))); unfold session_open; simpl;
      repeat split; auto.
Qed.

Lemma session_open_play_through (fuel : nat) :
  forall p, session_open p ->
            session_open (snd (play_through scenes host fuel p)).
Proof.
  induction fuel as [|k IH]; intros p Hp; [exact Hp|].
  simpl. destruct (next_event p) as [e|] eqn:Hnext; [|exact Hp].
  assert (He : (exists n, e = TimerFires n) \/ e = AudioEnded).
  { unfold next_event in Hnext. destruct (timers p).
    - destruct (audioPlaying p); [|discriminate]. injection Hnext as <-.
      now right.
    - injection Hnext as <-. left. now exists 0%nat. }
  specialize (IH _ (session_open_step e p He Hp)).
  destruct (play_through scenes host k (step scenes host e p)) as [ls q].
  exact IH.
Qed.

Lemma recording_begins (sc : Scene) (rest : list Scene) :
  scenes = sc :: rest ->
  host_capable host ->
  waiting scenes host (step scenes host ClickRecord mount)
  /\ cursor (step scenes host ClickRecord mount) = mkCursor 0 0 true true
  /\ session_open (step scenes host ClickRecord mount).
Proof.
  intros Hscenes Hhost.
  destruct (startRecording_succeeds host mount Hhost (or_introl eq_refl))
    as (q & Hrun & Hc & Hrec & Hchunks & _).
  destruct (startRecording_keeps_page host mount)
    as (Ht & _ & _ & Ha & Hstop & Hd).
  rewrite Hrun in Ht, Ha, Hstop, Hd. simpl in Ht, Ha, Hstop, Hd.
  unfold step, dispatch. simpl disabled. cbv iota. rewrite Hrun.
  cbv iota beta. simpl fst. unfold commit. rewrite Hc.
  replace (deps_changed (cursor mount) (mkCursor 0 0 true true)) with true
    by reflexivity.
  destruct (effects_arm_one_continuation scenes host q sc) as [Hw Hcur];
    try assumption.
  - now rewrite Hc.
  - unfold currentScene. rewrite Hc, Hscenes. reflexivity.
  - rewrite Hc. simpl. lia.
  - split; [exact Hw|]. split; [now rewrite Hcur|].
    pose proof (session_open_commit (mkCursor 0 0 false true) q) as Hs.
    unfold commit in Hs. rewrite Hc in Hs.
    replace (deps_changed (mkCursor 0 0 false true) (mkCursor 0 0 true true))
      with true in Hs by reflexivity.
    apply Hs. unfold session_open. rewrite Hc, Hd, Hchunks, Hrec, Hstop.
    simpl. repeat split; auto.
Qed.

(** X15. A recording of a project with at least one scene, started on a
    capable page and left alone, visits every line in storage order,
    stops the recorder by itself at the end of the last scene, and on
    the recorder's stop event hands over exactly one download and
    clears [isRecording] and [isPlaying]; a repeated stop event changes
    nothing more. *)
Theorem recording_session_downloads_once (fuel : nat) :
  scenes <> [] ->
  host_capable host ->
  (run_length scenes <= fuel)%nat ->
  let started := step scenes host ClickRecord mount in
  let ended := snd (play_through scenes host fuel started) in
  let saved := step scenes host RecorderStopped ended in
  active_line scenes started ++ fst (play_through scenes host fuel started)
  = array_order_lines 0 scenes
  /\ isPlaying (cursor ended) = false
  /\ isRecording (cursor ended) = true
  /\ mediaRecorderRef ended = Some Inactive
  /\ downloads ended = []
  /\ isPlaying (cursor saved) = false
  /\ isRecording (cursor saved) = false
  /\ List.length (downloads saved) = 1%nat
  /\ step scenes host RecorderStopped saved = saved.
Proof.
  intros Hne Hhost Hfuel.
  destruct scenes as [|sc rest] eqn:Hscenes; [contradiction|].
  rewrite <- Hscenes in *. intros started ended saved.
  destruct (recording_begins sc rest Hscenes Hhost) as (Hw & Hc & Hopen).
  fold started in Hw, Hc, Hopen.
  destruct (scenes_play_in_array_order scenes host rest [] sc started)
    as (ls & q & Hrun & Hlines & Hplay & Hstop);
    [exact Hscenes | exact Hw | now rewrite Hc | now rewrite Hc |].
  rewrite <- Hscenes in Hrun, Hlines. simpl List.length in Hlines.
  assert (Hpt : play_through scenes host fuel started = (ls, q)).
  { replace fuel with (run_length scenes + (fuel - run_length scenes))%nat
      by lia.
    rewrite play_through_app, Hrun, (play_through_stopped _ _ _ _ Hstop).
    now rewrite app_nil_r. }
  pose proof (session_open_play_through fuel started Hopen) as Hq.
  subst saved ended. rewrite Hpt in *. simpl fst. simpl snd in *.
  destruct Hq as (Hrec & Hdl & Hch & [(Hp & _)|(_ & Hmr & Hpending)]);
    [congruence|].
  assert (Hsaved : step scenes host RecorderStopped q
                   = onstop (set_stopEventPending false q)).
  { unfold step, dispatch. simpl disabled. cbv iota.
    rewrite Hpending. simpl fst. unfold commit.
    replace (deps_changed (cursor q)
               (cursor (onstop (set_stopEventPending false q))))
      with false; [reflexivity|].
    unfold deps_changed. simpl. rewrite Hplay.
    now rewrite !Nat.eqb_refl. }
  split; [exact Hlines|]. split; [exact Hplay|]. split; [exact Hrec|].
  split; [exact Hmr|]. split; [exact Hdl|].
  rewrite Hsaved.
  split; [reflexivity|]. split; [reflexivity|].
  split; [simpl; now rewrite Hdl|].
  unfold step, dispatch. simpl disabled. cbv iota.
  replace (stopEventPending (onstop (set_stopEventPending false q)))
    with false by reflexivity.
  simpl fst. apply commit_same.
Qed.

End SessionFacts.

Lemma recording_session_downloads_once_witness :
  two_scenes <> []
  /\ host_capable capable_host
  /\ List.length
       (downloads
          (step two_scenes capable_host RecorderStopped
             (snd (play_through two_scenes capable_host 5
                     (step two_scenes capable_host ClickRecord mount)))))
     = 1%nat.
Proof.
  assert (Hne : two_scenes <> []) by discriminate.
  assert (Hhost : host_capable capable_host) by (now repeat split).
  split; [exact Hne|]. split; [exact Hhost|].
  exact (proj1 (proj2 (proj2 (proj2 (proj2 (proj2 (proj2 (proj2
           (recording_session_downloads_once two_scenes capable_host 5
              Hne Hhost ltac:(simpl; lia)))))))))).
Defined.

(** ** Duration of a silent playback *)


Section DurationFacts.
Variable scenes : list Scene.
Variable host : Host.








End DurationFacts.


(** ** A project without scenes *)

(** X17. With no scenes, play never comes to an end: the component is
    left playing with nothing pending, so [isPlaying] is never reset;
    and a recording started on a capable page never stops by itself
    while every button, the record button included, stays disabled. *)
Theorem empty_project_never_stops (host : Host) (fuel : nat) :
  let playing := step [] host ClickPlayPause mount in
  playback [] host fuel = ([], playing)
  /\ cursor playing = mkCursor 0 0 true false
  /\ next_event playing = None
  /\ (host_capable host ->
      let recording := step [] host ClickRecord mount in
      cursor recording = mkCursor 0 0 true true
      /\ mediaRecorderRef recording = Some Recording
      /\ play_through [] host fuel recording = ([], recording)
      /\ forall e,
           In e [ClickRewind; ClickPlayPause; ClickNext; ClickRecord] ->
           step [] host e recording = recording).
Proof.
  intros playing.
  split; [unfold playback; now destruct fuel|].
  split; [reflexivity|]. split; [reflexivity|].
  intros Hhost recording.
  destruct (startRecording_succeeds host mount Hhost (or_introl eq_refl))
    as (q & Hrun & Hc & Hrec & _).
  destruct (startRecording_keeps_page host mount) as (Ht & _ & _ & Ha & _).
  rewrite Hrun in Ht, Ha. simpl in Ht, Ha.
  assert (Hrecording : recording = set_animationFrameRef None q).
  { subst recording. unfold step, dispatch. simpl disabled. cbv iota.
    rewrite Hrun. cbv iota beta. simpl fst. unfold commit. rewrite Hc.
    replace (deps_changed (cursor mount) (mkCursor 0 0 true true)) with true
      by reflexivity.
    unfold render_effect, sequencing_effect, playNextDialogue, currentScene.
    rewrite Hc. simpl. rewrite Hc. reflexivity. }
  rewrite Hrecording. simpl.
  split; [exact Hc|]. split; [exact Hrec|]. split.
  - destruct fuel; [reflexivity|]. simpl.
    unfold next_event. simpl. now rewrite Ht, Ha.
  - intros e He. unfold step, dispatch.
    assert (Hd : disabled e (cursor (set_animationFrameRef None q)) = true).
    { simpl. rewrite Hc.
      destruct He as [<-|[<-|[<-|[<-|[]]]]]; reflexivity. }
    rewrite Hd. apply commit_same.
Qed.

(** ** What the word wrap draws *)

Lemma render_words_app (a b : list string) :
  render_words (a ++ b) = (render_words a ++ render_words b)%string.
Proof.
  induction a as [|w a IH]; simpl; [reflexivity|].
  now rewrite IH, !append_assoc.
Qed.

Lemma render_words_split (txt : string) :
  render_words (split_space txt) = (txt ++ " ")%string.
Proof.
  induction txt as [|c rest IH]; [reflexivity|].
  simpl. destruct (Ascii.eqb c " ") eqn:Hc.
  - apply Ascii.eqb_eq in Hc. subst c. simpl. now rewrite IH.
  - destruct (split_space rest) as [|w ws] eqn:Hs.
    + now apply split_space_nonempty in Hs.
    + simpl in *. now rewrite IH.
Qed.

Lemma laid_out_texts (x lineHeight : Z) (groups : list (list string)) :
  forall y,
    fold_right String.append EmptyString
      (map ft_text (laid_out x lineHeight groups y))
    = render_words (List.concat groups).
Proof.
  induction groups as [|g gs IH]; intros y; [reflexivity|].
  simpl. now rewrite IH, render_words_app.
Qed.

Lemma laid_out_length (x lineHeight : Z) (groups : list (list string)) :
  forall y, List.length (laid_out x lineHeight groups y) = List.length groups.
Proof.
  induction groups as [|g gs IH]; intros y; simpl; [reflexivity|].
  now rewrite IH.
Qed.

Lemma nonempty_groups_length {A} (groups : list (list A)) :
  Forall (fun g => g <> []) groups ->
  (List.length groups <= List.length (List.concat groups))%nat.
Proof.
  induction groups as [|g gs IH]; intros H; [simpl; lia|].
  inversion H; subst. simpl. rewrite length_app.
  specialize (IH ltac:(assumption)).
  destruct g; [contradiction | simpl; lia].
Qed.

(** X18. [wrapText] loses nothing and invents nothing: whatever the
    limit and the measure, the texts of its [fillText] calls, put end to
    end, are the input followed by exactly one space; it always draws at
    least one line (a single space for the empty text), never an empty
    one, and never more lines than the text has words. *)
Theorem wrapText_draws_the_text (Width : Type)
    (exceeds : Width -> Width -> bool) (measureText : string -> Width)
    (x : Z) (maxWidth : Width) (lineHeight : Z) (txt : string) (y : Z) :
  let calls := wrapText exceeds measureText x maxWidth lineHeight txt y in
  fold_right String.append EmptyString (map ft_text calls)
  = (txt ++ " ")%string
  /\ (1 <= List.length calls <= List.length (split_space txt))%nat
  /\ Forall (fun c => ft_text c <> EmptyString) calls.
Proof.
  intros calls. subst calls. unfold wrapText.
  destruct (wrap_loop_groups Width exceeds measureText x maxWidth lineHeight
              (split_space txt) 0 [] EmptyString y)
    as (more & tail & Hrun & Hcat & Hall & _ & Hne & _);
    [reflexivity | tauto | now left |].
  simpl app in *. rewrite Hrun.
  assert (Hmore : more <> [])
    by (apply Hne; left; apply split_space_nonempty).
  assert (Hgroups : Forall (fun g : list string => g <> []) (more :: tail)).
  { constructor; [exact Hmore|].
    eapply Forall_impl; [|exact Hall]. now intros g [Hg _]. }
  split; [|split].
  - now rewrite laid_out_texts, Hcat, render_words_split.
  - rewrite laid_out_length. split; [simpl; lia|].
    rewrite <- Hcat. now apply nonempty_groups_length.
  - clear Hrun Hcat. generalize y.
    induction Hgroups as [|g gs Hg _ IH]; intros y0; [constructor|].
    simpl. constructor; [|apply IH].
    simpl. destruct g as [|w g]; [contradiction|].
    simpl. destruct w; discriminate.
Qed.

(** ** From the voice selector to the request *)

Lemma find_map_same_id (charId : string) (f : Character -> Character)
    (cs : list Character) :
  (forall c, c_id (f c) = c_id c) ->
  find (fun c => String.eqb (c_id c) charId) (map f cs)
  = option_map f (find (fun c => String.eqb (c_id c) charId) cs).
Proof.
  intros Hid. induction cs as [|c cs IH]; [reflexivity|].
  simpl. rewrite Hid. now destruct (String.eqb (c_id c) charId).
Qed.

(** X19. Choosing a voice in the storyboard decides what the next voice
    request asks for: after [updateCharacter] has stored a supported
    voice for the speaker of a line, the click on that line sends this
    voice and [generateTTS] keeps it; for a line whose speaker is not in
    the cast the request still asks for Kore. *)
Theorem chosen_voice_reaches_the_request (app : App) (dialogue : Dialogue)
    (voice : string) :
  In voice validVoices ->
  let app' :=
    updateCharacter (characterId dialogue)
      (mkCharacterUpdate None None None (Some voice) None) app in
  (forall ch,
      find (fun c => String.eqb (c_id c) (characterId dialogue))
        (app_characters app) = Some ch ->
      voice_for (app_characters app') dialogue = voice
      /\ selectedVoice (voice_for (app_characters app') dialogue) = voice
      /\ (isGeneratingAudio dialogue = false ->
          forall sceneId,
            snd (handleGenerateAudio_click (app_characters app') sceneId
                   dialogue app')
            = Some (text dialogue, voice)))
  /\ (find (fun c => String.eqb (c_id c) (characterId dialogue))
        (app_characters app) = None ->
      selectedVoice (voice_for (app_characters app') dialogue) = "Kore"%string).
Proof.
  intros Hvoice app'.
  assert (Hne : voice <> EmptyString).
  { intros ->. simpl in Hvoice. intuition discriminate. }
  assert (Hchars : app_characters app'
                   = map (fun c => if String.eqb (c_id c) (characterId dialogue)
                                   then spread_character c
                                          (mkCharacterUpdate None None None
                                             (Some voice) None)
                                   else c)
                         (app_characters app)).
  { subst app'. now destruct app as [v [[t cs ss]|]]. }
  assert (Hfind : find (fun c => String.eqb (c_id c) (characterId dialogue))
                    (app_characters app')
                  = option_map
                      (fun c => if String.eqb (c_id c) (characterId dialogue)
                                then spread_character c
                                       (mkCharacterUpdate None None None
                                          (Some voice) None)
                                else c)
                      (find (fun c => String.eqb (c_id c) (characterId dialogue))
                         (app_characters app))).
  { rewrite Hchars. apply find_map_same_id.
    intros c. now destruct (String.eqb (c_id c) (characterId dialogue)). }
  split.
  - intros ch Hch.
    assert (Hv : voice_for (app_characters app') dialogue = voice).
    { unfold voice_for. rewrite Hfind, Hch. simpl.
      apply find_some in Hch. destruct Hch as [_ Hid]. rewrite Hid. simpl.
      destruct voice; [contradiction | reflexivity]. }
    split; [exact Hv|]. split.
    + rewrite Hv. unfold selectedVoice.
      now rewrite (proj2 (existsb_eqb_In voice validVoices) Hvoice).
    + intros Hgen sceneId. unfold handleGenerateAudio_click.
      rewrite Hgen. simpl. now rewrite Hv.
  - intros Hnone. unfold voice_for. rewrite Hfind, Hnone. reflexivity.
Qed.

Lemma chosen_voice_reaches_the_request_witness :
  In "Puck"%string validVoices
  /\ voice_for
       (app_characters
          (updateCharacter "c"
             (mkCharacterUpdate None None None (Some "Puck"%string) None)
             (mkApp ViewStoryboard
                (Some (mkScriptAnalysis "t"
                         [mkCharacter "c" "Kaito" "" "Zephyr" None]
                         two_scenes)))))
       (silent "hello")
     = "Puck"%string.
Proof.
  assert (Hin : In "Puck"%string validVoices) by (simpl; auto).
  split; [exact Hin|].
  exact (proj1 (proj1 (chosen_voice_reaches_the_request
                         (mkApp ViewStoryboard
                            (Some (mkScriptAnalysis "t"
                                     [mkCharacter "c" "Kaito" "" "Zephyr" None]
                                     two_scenes)))
                         (silent "hello") "Puck" Hin)
                  (mkCharacter "c" "Kaito" "" "Zephyr" None) eq_refl)).
Defined.
